(** * mesa / experiments / g2o-test.cpp: the relative-pose residual diagnostic

    The program loads a pose graph, prints for every factor its error and,
    for every [BetweenFactor<Pose3>], the discrepancy between the measured
    relative pose and the one implied by the initial estimate (in both
    orders of the two poses), then runs Levenberg-Marquardt.

    The embedding follows [main] line by line.  What [main] takes from GTSAM
    is either modelled (the [Pose3] algebra, below) or taken as a parameter
    (the class [Gtsam]: loader, error functions, optimizer, Euler angles).
    A C++ [double] is modelled as a real number: arithmetic is exact. *)

From Stdlib Require Import Reals Lra Psatz.
From stdpp Require Import gmap strings list.

Open Scope R_scope.

(** ** Geometry: vectors, rotations and poses *)

(** Modelled from the spec: [gtsam::Vector3] / [gtsam::Point3] are not in the
    repository; a translation is a triple of scalars. *)
Record Vector3 : Type := mkVector3 { vx : R; vy : R; vz : R }.

Definition Point3 : Type := Vector3.

Definition Vector3_Zero : Vector3 := mkVector3 0 0 0.

Definition Vector3_add (a b : Vector3) : Vector3 :=
  mkVector3 (vx a + vx b) (vy a + vy b) (vz a + vz b).

Definition Vector3_neg (a : Vector3) : Vector3 :=
  mkVector3 (- vx a) (- vy a) (- vz a).

(** Modelled from the spec: the residual magnitude is the "Euclidean norm of the
    translation component"; the code calls Eigen's [norm()]. *)
Definition Vector3_norm (a : Vector3) : R :=
  sqrt (vx a * vx a + vy a * vy a + vz a * vz a).

(** Modelled from the spec: [gtsam::Rot3] is not in the repository; the rotation
    component of a pose, held as a 3x3 matrix (row, column). *)
Record Rot3 : Type := mkRot3 {
  r11 : R; r12 : R; r13 : R;
  r21 : R; r22 : R; r23 : R;
  r31 : R; r32 : R; r33 : R }.

Definition Rot3_Identity : Rot3 := mkRot3 1 0 0 0 1 0 0 0 1.

(** [Rot3::operator*(const Rot3&)]: the matrix product. *)
Definition Rot3_compose (a b : Rot3) : Rot3 :=
  mkRot3
    (r11 a * r11 b + r12 a * r21 b + r13 a * r31 b)
    (r11 a * r12 b + r12 a * r22 b + r13 a * r32 b)
    (r11 a * r13 b + r12 a * r23 b + r13 a * r33 b)
    (r21 a * r11 b + r22 a * r21 b + r23 a * r31 b)
    (r21 a * r12 b + r22 a * r22 b + r23 a * r32 b)
    (r21 a * r13 b + r22 a * r23 b + r23 a * r33 b)
    (r31 a * r11 b + r32 a * r21 b + r33 a * r31 b)
    (r31 a * r12 b + r32 a * r22 b + r33 a * r32 b)
    (r31 a * r13 b + r32 a * r23 b + r33 a * r33 b).

(** [Rot3::inverse()]: the transpose. *)
Definition Rot3_inverse (a : Rot3) : Rot3 :=
  mkRot3 (r11 a) (r21 a) (r31 a)
         (r12 a) (r22 a) (r32 a)
         (r13 a) (r23 a) (r33 a).

(** [Rot3::operator*(const Point3&)]: rotate a point. *)
Definition Rot3_rotate (a : Rot3) (p : Point3) : Point3 :=
  mkVector3
    (r11 a * vx p + r12 a * vy p + r13 a * vz p)
    (r21 a * vx p + r22 a * vy p + r23 a * vz p)
    (r31 a * vx p + r32 a * vy p + r33 a * vz p).

Definition Rot3_det (a : Rot3) : R :=
  r11 a * (r22 a * r33 a - r23 a * r32 a)
  - r12 a * (r21 a * r33 a - r23 a * r31 a)
  + r13 a * (r21 a * r32 a - r22 a * r31 a).

(** A matrix that is a rotation: orthogonal, with determinant one.  The
    spec's data model takes poses from SE(3); the record above does not
    enforce it, so statements that need it say so. *)
Definition is_rotation (a : Rot3) : Prop :=
  Rot3_compose (Rot3_inverse a) a = Rot3_Identity /\
  Rot3_compose a (Rot3_inverse a) = Rot3_Identity /\
  Rot3_det a = 1.

(** Modelled from the spec: [gtsam::Pose3] is not in the repository; "an element
    of a rigid-transform group (3D case: rotation + translation)". *)
Record Pose3 : Type := mkPose3 { R_ : Rot3; t_ : Point3 }.

Definition Pose3_rotation (p : Pose3) : Rot3 := R_ p.
Definition Pose3_translation (p : Pose3) : Point3 := t_ p.

Definition Pose3_Identity : Pose3 := mkPose3 Rot3_Identity Vector3_Zero.

(** [Pose3::operator*]: [Pose3(R_ * T.R_, t_ + R_ * T.t_)]. *)
Definition Pose3_compose (a b : Pose3) : Pose3 :=
  mkPose3 (Rot3_compose (R_ a) (R_ b))
          (Vector3_add (t_ a) (Rot3_rotate (R_ a) (t_ b))).

(** [Pose3::inverse()]: [Rt = R_.inverse(); Pose3(Rt, Rt * (-t_))]. *)
Definition Pose3_inverse (a : Pose3) : Pose3 :=
  let Rt := Rot3_inverse (R_ a) in
  mkPose3 Rt (Rot3_rotate Rt (Vector3_neg (t_ a))).

(** Modelled from the spec: "[between(A, B)] returns the relative transform that
    maps A's frame to B's frame (i.e. [A⁻¹ · B])". *)
Definition Pose3_between (a b : Pose3) : Pose3 :=
  Pose3_compose (Pose3_inverse a) b.

Definition is_pose (p : Pose3) : Prop := is_rotation (R_ p).

(** The pure translation by [(x, y, z)]. *)
Definition translate (x y z : R) : Pose3 :=
  mkPose3 Rot3_Identity (mkVector3 x y z).

(** ** The pose graph and the initial estimate *)

(** [gtsam::Key] is [std::uint64_t]; keys are only compared, never computed
    with. *)
Abbreviation Key := N (only parsing).

(** What the driver reads from a [BetweenFactor<Pose3>]: [key1()], [key2()]
    and [measured()].  The noise model is opaque to the driver. *)
Record BetweenFactorPose3 : Type := mkBetweenFactorPose3 {
  key1 : Key;
  key2 : Key;
  measured : Pose3 }.

(** A factor of the graph, by its dynamic type: the only kind the driver
    singles out, and every other kind (priors, 2D constraints, ...). *)
Inductive NonlinearFactor : Type :=
| Between (b : BetweenFactorPose3)
| OtherFactor (keys : list Key).

Abbreviation NonlinearFactorGraph := (list NonlinearFactor) (only parsing).

(** [gtsam::Values] as loaded with [is3D = true]: the pose estimate set,
    "a mapping from integer key to Pose".  It holds poses only, so that
    [at<Pose3>] fails for an absent key and for nothing else. *)
Abbreviation Values := (gmap N Pose3) (only parsing).

(** [boost::dynamic_pointer_cast<gtsam::BetweenFactor<gtsam::Pose3>>]. *)
Definition dynamic_pointer_cast (factor : NonlinearFactor)
  : option BetweenFactorPose3 :=
  match factor with
  | Between b => Some b
  | OtherFactor _ => None
  end.

(** C++ exceptions that can reach [main]. *)
Inductive exn : Type :=
| ValuesKeyDoesNotExist (k : Key)
| std_out_of_range
| LibraryException (what : string).

(** [initial.at<gtsam::Pose3>(key)]: throws when the key is absent. *)
Definition Values_at (values : Values) (k : Key) : exn + Pose3 :=
  match values !! k with
  | Some p => inr p
  | None => inl (ValuesKeyDoesNotExist k)
  end.

Record LevenbergMarquardtParams : Type := mkParams {
  errorTol : R;
  maxIterations : nat }.

(** The rest of GTSAM, as the driver calls it.  Every call may throw. *)
Class Gtsam : Type := {
  (** [Rot3::xyz()]: the roll, pitch and yaw angles of a rotation *)
  Rot3_xyz : Rot3 -> Vector3;
  (** [factor->error(values)] *)
  factor_error : NonlinearFactor -> Values -> exn + R;
  (** [graph.error(values)] *)
  graph_error : NonlinearFactorGraph -> Values -> exn + R;
  (** [gtsam::readG2o(file_path, is3D)] *)
  readG2o : string -> bool -> exn + (NonlinearFactorGraph * Values);
  (** [LevenbergMarquardtOptimizer(graph, initial, params).optimize()] *)
  optimize : NonlinearFactorGraph -> Values -> LevenbergMarquardtParams
             -> exn + Values }.

(** ** Console output *)

(** One value per [std::cout << ... << std::endl] statement of [main]; the
    numbers are kept as numbers (their formatting is the stream's).  The
    two labels stand for a line left unfinished: the text ["Initial Error: "]
    or ["Final Error: "] with no number and no end of line after it, which
    is what lines 18 and 56 leave on the stream when [graph.error] throws. *)
Inductive Line : Type :=
| InitialError (e : R)
| Separator
| FactorError (i : nat) (e : R)
| Node (k1 k2 : Key)
| TranslationDifference (translation rotation : R)
| TranslationDifferenceV2 (translation rotation : R)
| NotBetweenFactor (i : nat)
| FinalError (e : R)
| InitialErrorLabel
| FinalErrorLabel.

(** ** The state of [main] and its monad *)

(** The local variables [graph] and [initial] of [main] (neither is declared
    [const]) and what has been written to [std::cout]. *)
Record Mem : Type := mkMem {
  graph : list NonlinearFactor;
  initial : gmap N Pose3;
  cout : list Line }.

Inductive outcome (A : Type) : Type :=
| Returns (a : A)
| Throws (e : exn)
| OutOfFuel.
Arguments Returns {A} a.
Arguments Throws {A} e.
Arguments OutOfFuel {A}.

(** A statement: it reads and writes the state, and returns, throws, or (in
    the model of a loop only) runs out of fuel.  What was printed before an
    exception stays printed. *)
Definition M (A : Type) : Type := Mem -> outcome A * Mem.

#[export] Instance M_ret : MRet M := fun A a mem => (Returns a, mem).

#[export] Instance M_bind : MBind M := fun A B k c mem =>
  match c mem with
  | (Returns a, mem') => k a mem'
  | (Throws e, mem') => (Throws e, mem')
  | (OutOfFuel, mem') => (OutOfFuel, mem')
  end.

(** The result of a library call or of [Values_at]: a value or a throw. *)
Definition lift {A : Type} (r : exn + A) : M A := fun mem =>
  match r with
  | inl e => (Throws e, mem)
  | inr a => (Returns a, mem)
  end.

Definition read {A : Type} (field : Mem -> A) : M A := fun mem =>
  (Returns (field mem), mem).

(** [std::cout << line << std::endl] *)
Definition print (line : Line) : M unit := fun mem =>
  (Returns tt, mkMem (graph mem) (initial mem) (cout mem ++ [line])).

(** [std::cout << label << value << std::endl] where evaluating [value]
    may throw.  The operands of [<<] are sequenced from left to right: the
    label is on the stream before [value] is evaluated.  When the evaluation
    throws the label stays written and the line unfinished; when it returns
    the line is completed. *)
Definition print_evaluated (label : Line) (line : R -> Line) (value : exn + R)
  : M unit :=
  match value with
  | inl e => print label;; lift (inl e)
  | inr x => print (line x)
  end.

(** [graph[i]], which is [factors_.at(i)]. *)
Definition graph_at (i : nat) : M NonlinearFactor := fun mem =>
  match graph mem !! i with
  | Some factor => (Returns factor, mem)
  | None => (Throws std_out_of_range, mem)
  end.

(** [for (size_t i = start; cond; i++) body]: the condition is evaluated on
    the current state before every iteration. *)
Fixpoint for_loop (fuel : nat) (i : nat) (cond : nat -> Mem -> bool)
    (body : nat -> M unit) : M unit := fun mem =>
  match fuel with
  | O => (OutOfFuel, mem)
  | S fuel' =>
      if cond i mem then
        match body i mem with
        | (Returns _, mem') => for_loop fuel' (S i) cond body mem'
        | (Throws e, mem') => (Throws e, mem')
        | (OutOfFuel, mem') => (OutOfFuel, mem')
        end
      else (Returns tt, mem)
  end.

(** ** The driver *)

Section Driver.
Context `{Gtsam}.

(** Lines 29-45: the body of [if (between)]. *)
Definition between_block (between : BetweenFactorPose3) : M unit :=
  let measured := measured between in
  let key1 := key1 between in
  let key2 := key2 between in
  values ← read initial;
  pose1 ← lift (Values_at values key1);
  pose2 ← lift (Values_at values key2);
  let predicted := Pose3_between pose1 pose2 in
  let predicted_v2 := Pose3_between pose2 pose1 in
  let diff := Pose3_between measured predicted in
  let diff_v2 := Pose3_between measured predicted_v2 in
  print (Node key1 key2);;
  print (TranslationDifference
           (Vector3_norm (Pose3_translation diff))
           (Vector3_norm (Rot3_xyz (Pose3_rotation diff))));;
  print (TranslationDifferenceV2
           (Vector3_norm (Pose3_translation diff_v2))
           (Vector3_norm (Rot3_xyz (Pose3_rotation diff_v2)))).

(** Lines 22-48: what the loop does with the factor it has fetched. *)
Definition diagnose (i : nat) (factor : NonlinearFactor) : M unit :=
  values ← read initial;
  e ← lift (factor_error factor values);
  print Separator;;
  print (FactorError i e);;
  match dynamic_pointer_cast factor with
  | Some between => between_block between
  | None => print (NotBetweenFactor i)
  end.

(** Lines 21-48: the body of the [for] loop. *)
Definition factor_body (i : nat) : M unit :=
  factor ← graph_at i;
  diagnose i factor.

(** Line 20: [i < graph.size()]. *)
Definition loop_cond (i : nat) (mem : Mem) : bool :=
  bool_decide (i < length (graph mem))%nat.

(** Lines 20-49. *)
Definition factor_loop (fuel : nat) : M unit :=
  for_loop fuel 0 loop_cond factor_body.

(** Lines 51-53. *)
Definition params : LevenbergMarquardtParams :=
  mkParams (1 / 100000000) 1000.

(** Lines 18-57, once the graph is loaded. *)
Definition report_and_solve (fuel : nat) : M Z :=
  g ← read graph;
  values ← read initial;
  print_evaluated InitialErrorLabel InitialError (graph_error g values);;
  factor_loop fuel;;
  g ← read graph;
  values ← read initial;
  result ← lift (optimize g values params);
  print_evaluated FinalErrorLabel FinalError (graph_error g result);;
  mret 0%Z.

(** Line 12: [argc > 1 ? argv[1] : "data/2d/2d-1.g2o"], with [argc] the
    length of [argv]. *)
Definition file_path (argv : list string) : string :=
  if bool_decide (1 < length argv)%nat then argv !!! 1%nat
  else "data/2d/2d-1.g2o"%string.

(** Lines 8-58.  The result is what [main] returns or throws and what it
    has printed. *)
Definition main (fuel : nat) (argv : list string) : outcome Z * list Line :=
  let is3D := true in
  match readG2o (file_path argv) is3D with
  | inl e => (Throws e, [])
  | inr (g, values) =>
      let (r, mem) := report_and_solve fuel (mkMem g values []) in
      (r, cout mem)
  end.

(** The residual pairs of one constraint: the numbers [between_block]
    prints, or the exception it throws (the spec's [computeResidual]). *)
Definition computeResidual (between : BetweenFactorPose3) (values : Values)
  : exn + ((R * R) * (R * R)) :=
  match Values_at values (key1 between) with
  | inl e => inl e
  | inr pose1 =>
      match Values_at values (key2 between) with
      | inl e => inl e
      | inr pose2 =>
          let predicted := Pose3_between pose1 pose2 in
          let predicted_v2 := Pose3_between pose2 pose1 in
          let diff := Pose3_between (measured between) predicted in
          let diff_v2 := Pose3_between (measured between) predicted_v2 in
          inr ((Vector3_norm (Pose3_translation diff),
                Vector3_norm (Rot3_xyz (Pose3_rotation diff))),
               (Vector3_norm (Pose3_translation diff_v2),
                Vector3_norm (Rot3_xyz (Pose3_rotation diff_v2))))
      end
  end.

(** The in-order traversal of a list of factors, [i] being the index of the
    first: what the loop amounts to (lemma [for_loop_traverse]). *)
Fixpoint traverse (i : nat) (factors : list NonlinearFactor) : M unit :=
  match factors with
  | [] => mret tt
  | factor :: rest => diagnose i factor;; traverse (S i) rest
  end.

(** The lines the pass prints for the factor at index [i] when nothing
    throws: the iteration contract of the spec. *)
Definition factor_report (values : Values) (i : nat) (factor : NonlinearFactor)
  : list Line :=
  match factor_error factor values with
  | inr e => [Separator; FactorError i e]
  | inl _ => []
  end ++
  match factor with
  | Between b =>
      match computeResidual b values with
      | inr (forward, backward) =>
          [Node (key1 b) (key2 b);
           TranslationDifference forward.1 forward.2;
           TranslationDifferenceV2 backward.1 backward.2]
      | inl _ => []
      end
  | OtherFactor _ => [NotBetweenFactor i]
  end.

End Driver.

(** The state after printing [lines]. *)
Definition emit (mem : Mem) (lines : list Line) : Mem :=
  mkMem (graph mem) (initial mem) (cout mem ++ lines).

(** What a statement printed when run from [mem]. *)
Definition printed {A : Type} (c : M A) (mem : Mem) : list Line :=
  drop (length (cout mem)) (cout (c mem).2).

(** The constraint with its two keys exchanged. *)
Definition swap_keys (b : BetweenFactorPose3) : BetweenFactorPose3 :=
  mkBetweenFactorPose3 (key2 b) (key1 b) (measured b).

(** ** A reference library

    One implementation of the class [Gtsam], used to instantiate the
    statements below at concrete inputs.  The statements themselves hold for
    every implementation that meets the hypotheses they name. *)

(** [atan2(y, x)] of the C library, from [atan]. *)
Definition atan2 (y x : R) : R :=
  if Rlt_dec 0 x then atan (y / x)
  else if Rlt_dec x 0 then
    (if Rle_dec 0 y then atan (y / x) + PI else atan (y / x) - PI)
  else if Rlt_dec 0 y then PI / 2
  else if Rlt_dec y 0 then - (PI / 2)
  else 0.

Definition Rot3_Rx (t : R) : Rot3 :=
  mkRot3 1 0 0
         0 (cos t) (- sin t)
         0 (sin t) (cos t).

Definition Rot3_Ry (t : R) : Rot3 :=
  mkRot3 (cos t) 0 (sin t)
         0 1 0
         (- sin t) 0 (cos t).

(** Modelled from the spec: "norm of the rotation component, e.g. an axis-angle
    or Euler-angle vector norm"; [Rot3::xyz()] is not in the repository.
    These are the angles of GTSAM's RQ decomposition: the matrix is brought
    to upper-triangular form by a rotation about x, then y, then z. *)
Definition RQ_xyz (a : Rot3) : Vector3 :=
  let x := - atan2 (- r32 a) (r33 a) in
  let b := Rot3_compose a (Rot3_Rx (- x)) in
  let y := - atan2 (r31 b) (r33 b) in
  let c := Rot3_compose b (Rot3_Ry (- y)) in
  let z := - atan2 (- r21 c) (r22 c) in
  mkVector3 x y z.

(** The error of a factor, up to the noise model: half the squared residual
    of a constraint; a factor on an absent key throws. *)
Definition reference_factor_error (factor : NonlinearFactor) (values : Values)
  : exn + R :=
  match factor with
  | Between b =>
      match Values_at values (key1 b), Values_at values (key2 b) with
      | inr pose1, inr pose2 =>
          let diff := Pose3_between (measured b) (Pose3_between pose1 pose2) in
          let t := Vector3_norm (Pose3_translation diff) in
          let r := Vector3_norm (RQ_xyz (Pose3_rotation diff)) in
          inr ((t * t + r * r) / 2)
      | inl e, _ => inl e
      | _, inl e => inl e
      end
  | OtherFactor keys =>
      match list_find (fun k => values !! k = None) keys with
      | Some (_, k) => inl (ValuesKeyDoesNotExist k)
      | None => inr 0
      end
  end.

Fixpoint reference_graph_error (g : NonlinearFactorGraph) (values : Values)
  : exn + R :=
  match g with
  | [] => inr 0
  | factor :: g' =>
      match reference_factor_error factor values with
      | inl e => inl e
      | inr x =>
          match reference_graph_error g' values with
          | inl e => inl e
          | inr y => inr (x + y)
          end
      end
  end.

(** A file system with one graph file: two poses one metre apart and the
    constraint between them. *)
Definition two_node_graph (m : Pose3) : NonlinearFactorGraph :=
  [Between (mkBetweenFactorPose3 0%N 1%N m)].

Definition two_node_values : Values :=
  <[0%N := Pose3_Identity]> {[1%N := translate 1 0 0]}.

Definition reference_readG2o (path : string) (is3D : bool)
  : exn + (NonlinearFactorGraph * Values) :=
  if String.eqb path "data/two_nodes.g2o" then
    if is3D then inr (two_node_graph (translate 1 0 0), two_node_values)
    else inl (LibraryException "not a 2D graph")
  else inl (LibraryException "cannot open file").

(** An optimizer that stops at once: it returns the initial estimate. *)
Definition reference_optimize (g : NonlinearFactorGraph) (values : Values)
    (p : LevenbergMarquardtParams) : exn + Values :=
  inr values.

Definition reference : Gtsam := {|
  Rot3_xyz := RQ_xyz;
  factor_error := reference_factor_error;
  graph_error := reference_graph_error;
  readG2o := reference_readG2o;
  optimize := reference_optimize |}.

(** The library [L] with another loader. *)
Definition with_readG2o
    (rd : string -> bool -> exn + (NonlinearFactorGraph * Values))
    (L : Gtsam) : Gtsam := {|
  Rot3_xyz := @Rot3_xyz L;
  factor_error := @factor_error L;
  graph_error := @graph_error L;
  readG2o := rd;
  optimize := @optimize L |}.

(** ** Concrete inputs *)

(** A graph whose first constraint names key 1, and an estimate that has
    key 0 only. *)
Definition dangling_graph : NonlinearFactorGraph :=
  [Between (mkBetweenFactorPose3 0%N 1%N Pose3_Identity); OtherFactor []].

Definition dangling_values : Values := {[0%N := Pose3_Identity]}.

(** Two poses that are turned as well as moved, and the constraint that
    measures exactly what they imply. *)
Definition tilted_pose1 : Pose3 := mkPose3 (Rot3_Rx 1) (mkVector3 0 0 0).

Definition tilted_pose2 : Pose3 := mkPose3 (Rot3_Ry 1) (mkVector3 1 2 3).

Definition tilted_values : Values :=
  <[0%N := tilted_pose1]> {[1%N := tilted_pose2]}.

Definition tilted_constraint : BetweenFactorPose3 :=
  mkBetweenFactorPose3 0%N 1%N (Pose3_between tilted_pose1 tilted_pose2).



(** A statement that leaves [graph] and [initial] alone and only appends
    to [std::cout]. *)
Definition read_only {A : Type} (c : M A) : Prop :=
  forall mem, exists lines, (c mem).2 = emit mem lines.

(** The library [L] with another optimizer. *)
Definition with_optimize
    (opt : NonlinearFactorGraph -> Values -> LevenbergMarquardtParams
           -> exn + Values)
    (L : Gtsam) : Gtsam := {|
  Rot3_xyz := @Rot3_xyz L;
  factor_error := @factor_error L;
  graph_error := @graph_error L;
  readG2o := @readG2o L;
  optimize := opt |}.

(** What a line of the loop says about the graph and the estimate: the
    error is that of the factor at that index, the factor reported as not a
    constraint is one of another kind, the keys and the residual pairs are
    those of a constraint of the graph.  The loop prints neither of the two
    lines around it, nor their labels. *)
Definition line_sound `{Gtsam} (g : NonlinearFactorGraph) (values : Values)
    (line : Line) : Prop :=
  match line with
  | Separator => True
  | FactorError i e =>
      exists factor, g !! i = Some factor /\ factor_error factor values = inr e
  | NotBetweenFactor i => exists keys, g !! i = Some (OtherFactor keys)
  | Node k1 k2 =>
      exists m, Between (mkBetweenFactorPose3 k1 k2 m) ∈ g
                /\ is_Some (values !! k1) /\ is_Some (values !! k2)
  | TranslationDifference t r =>
      exists b backward,
        Between b ∈ g /\ computeResidual b values = inr ((t, r), backward)
  | TranslationDifferenceV2 t r =>
      exists b forward,
        Between b ∈ g /\ computeResidual b values = inr (forward, (t, r))
  | InitialError _ | FinalError _ | InitialErrorLabel | FinalErrorLabel =>
      False
  end.

(** The difference of two vectors. *)
Definition Vector3_sub (a b : Vector3) : Vector3 :=
  Vector3_add a (Vector3_neg b).

(** The estimate moved as a whole by the rigid transform [g]. *)
Definition move_all (g : Pose3) (values : Values) : Values :=
  Pose3_compose g <$> values.

(** A third pose, turned and moved, and a constraint from a node to
    itself. *)
Definition tilted_pose3 : Pose3 := mkPose3 (Rot3_Ry 2) (mkVector3 4 5 6).

Definition self_constraint : BetweenFactorPose3 :=
  mkBetweenFactorPose3 1%N 1%N tilted_pose1.

(** The reference library over a file system whose every file holds the
    graph with the dangling key. *)
Definition dangling_library : Gtsam :=
  with_readG2o (fun _ _ => inr (dangling_graph, dangling_values)) reference.

(** The visit of [factor] returns: the library gives its error and, for a
    constraint, both keys are in the estimate. *)
Definition diagnosable `{Gtsam} (values : Values) (factor : NonlinearFactor)
  : Prop :=
  (exists e, factor_error factor values = inr e)
  /\ (forall b, factor = Between b -> exists r, computeResidual b values = inr r).

(** The visit of [factor], at index [i], throws [e] after printing [tail]:
    either [factor->error] throws, before anything is printed, or a lookup
    of the constraint does, after the two lines that precede it. *)
Definition throws_at `{Gtsam} (values : Values) (i : nat)
    (factor : NonlinearFactor) (e : exn) (tail : list Line) : Prop :=
  (factor_error factor values = inl e /\ tail = [])
  \/ (exists x b, factor_error factor values = inr x
                  /\ factor = Between b
                  /\ computeResidual b values = inl e
                  /\ tail = [Separator; FactorError i x]).

(** ** Proof automation *)

Ltac unfold_geometry :=
  unfold Pose3_between, Pose3_compose, Pose3_inverse, Pose3_Identity,
    Pose3_rotation, Pose3_translation, translate,
    Rot3_compose, Rot3_inverse, Rot3_rotate, Rot3_Identity, Rot3_det,
    Vector3_add, Vector3_neg, Vector3_Zero in *.

(** Equalities of vectors, matrices and poses that hold entry by entry in
    every commutative ring. *)
Ltac entrywise :=
  intros;
  repeat match goal with
         | p : Pose3 |- _ => destruct p
         | a : Rot3 |- _ => destruct a
         | v : Vector3 |- _ => destruct v
         | v : Point3 |- _ => destruct v
         end;
  unfold_geometry; simpl;
  first [ ring | f_equal; ring | f_equal; f_equal; ring ].

Ltac unfold_monad :=
  unfold mbind, M_bind, mret, M_ret, read, lift in *.

(** Membership of a line in a list of lines given by its elements. *)
Ltac list_membership :=
  set_unfold; intuition (simplify_eq; try lia);
  repeat match goal with
         | Hall : forall n x, FactorError n x ∈ ?l -> _,
           Hin : FactorError _ _ ∈ ?l |- _ => apply Hall in Hin
         | Hall : forall n, NotBetweenFactor n ∈ ?l -> _,
           Hin : NotBetweenFactor _ ∈ ?l |- _ => apply Hall in Hin
         end;
  solve [lia | eauto].

(** * Properties *)

(** ** The algebra of rotations and poses *)

Lemma Rot3_compose_assoc (a b c : Rot3) :
  Rot3_compose (Rot3_compose a b) c = Rot3_compose a (Rot3_compose b c).
Proof. entrywise. Qed.

Lemma Rot3_compose_Identity_l (a : Rot3) : Rot3_compose Rot3_Identity a = a.
Proof. entrywise. Qed.

Lemma Rot3_compose_Identity_r (a : Rot3) : Rot3_compose a Rot3_Identity = a.
Proof. entrywise. Qed.

Lemma Rot3_inverse_compose (a b : Rot3) :
  Rot3_inverse (Rot3_compose a b) = Rot3_compose (Rot3_inverse b) (Rot3_inverse a).
Proof. entrywise. Qed.

Lemma Rot3_inverse_involutive (a : Rot3) : Rot3_inverse (Rot3_inverse a) = a.
Proof. entrywise. Qed.

Lemma Rot3_inverse_Identity : Rot3_inverse Rot3_Identity = Rot3_Identity.
Proof. reflexivity. Qed.

Lemma Rot3_det_compose (a b : Rot3) :
  Rot3_det (Rot3_compose a b) = Rot3_det a * Rot3_det b.
Proof. entrywise. Qed.

Lemma Rot3_det_inverse (a : Rot3) : Rot3_det (Rot3_inverse a) = Rot3_det a.
Proof. entrywise. Qed.

Lemma Rot3_rotate_compose (a b : Rot3) (p : Point3) :
  Rot3_rotate (Rot3_compose a b) p = Rot3_rotate a (Rot3_rotate b p).
Proof. entrywise. Qed.

Lemma Rot3_rotate_Identity (p : Point3) : Rot3_rotate Rot3_Identity p = p.
Proof. entrywise. Qed.

Lemma Rot3_rotate_add (a : Rot3) (p q : Point3) :
  Rot3_rotate a (Vector3_add p q) = Vector3_add (Rot3_rotate a p) (Rot3_rotate a q).
Proof. entrywise. Qed.

Lemma Rot3_rotate_neg (a : Rot3) (p : Point3) :
  Rot3_rotate a (Vector3_neg p) = Vector3_neg (Rot3_rotate a p).
Proof. entrywise. Qed.

Lemma Vector3_add_assoc (p q r : Vector3) :
  Vector3_add (Vector3_add p q) r = Vector3_add p (Vector3_add q r).
Proof. entrywise. Qed.

Lemma Vector3_add_neg_l (p : Vector3) :
  Vector3_add (Vector3_neg p) p = Vector3_Zero.
Proof. entrywise. Qed.

Lemma Vector3_add_neg_r (p : Vector3) :
  Vector3_add p (Vector3_neg p) = Vector3_Zero.
Proof. entrywise. Qed.

Lemma Vector3_add_Zero_l (p : Vector3) : Vector3_add Vector3_Zero p = p.
Proof. entrywise. Qed.

Lemma Vector3_add_Zero_r (p : Vector3) : Vector3_add p Vector3_Zero = p.
Proof. entrywise. Qed.

Lemma Vector3_neg_add (p q : Vector3) :
  Vector3_neg (Vector3_add p q) = Vector3_add (Vector3_neg q) (Vector3_neg p).
Proof. entrywise. Qed.

Lemma Vector3_neg_involutive (p : Vector3) : Vector3_neg (Vector3_neg p) = p.
Proof. entrywise. Qed.

(** Rotations are closed under the operations of the group. *)

Lemma is_rotation_Identity : is_rotation Rot3_Identity.
Proof.
  unfold is_rotation. rewrite Rot3_inverse_Identity, Rot3_compose_Identity_l.
  repeat split. unfold Rot3_det; simpl; ring.
Qed.

Lemma is_rotation_inverse (a : Rot3) : is_rotation a -> is_rotation (Rot3_inverse a).
Proof.
  intros (Hl & Hr & Hd). unfold is_rotation.
  rewrite Rot3_inverse_involutive, Rot3_det_inverse. auto.
Qed.

Lemma is_rotation_compose (a b : Rot3) :
  is_rotation a -> is_rotation b -> is_rotation (Rot3_compose a b).
Proof.
  intros (Hal & Har & Had) (Hbl & Hbr & Hbd). unfold is_rotation.
  rewrite Rot3_inverse_compose, Rot3_det_compose, Had, Hbd.
  repeat split.
  - rewrite Rot3_compose_assoc, <- (Rot3_compose_assoc (Rot3_inverse a)).
    now rewrite Hal, Rot3_compose_Identity_l.
  - rewrite Rot3_compose_assoc, <- (Rot3_compose_assoc b).
    now rewrite Hbr, Rot3_compose_Identity_l.
  - ring.
Qed.

(** The group laws of poses.  Associativity and the unit hold for all
    records; the inverse laws need the rotation to be orthogonal. *)

Lemma Pose3_compose_assoc (a b c : Pose3) :
  Pose3_compose (Pose3_compose a b) c = Pose3_compose a (Pose3_compose b c).
Proof. entrywise. Qed.

Lemma Pose3_compose_Identity_l (a : Pose3) : Pose3_compose Pose3_Identity a = a.
Proof. entrywise. Qed.

Lemma Pose3_compose_Identity_r (a : Pose3) : Pose3_compose a Pose3_Identity = a.
Proof. entrywise. Qed.

Lemma Pose3_inverse_l (a : Pose3) :
  is_pose a -> Pose3_compose (Pose3_inverse a) a = Pose3_Identity.
Proof.
  intros (Hl & _). destruct a as [r t]. unfold Pose3_compose, Pose3_inverse.
  simpl in *. rewrite Hl, Rot3_rotate_neg, Vector3_add_neg_l. reflexivity.
Qed.

Lemma Pose3_inverse_r (a : Pose3) :
  is_pose a -> Pose3_compose a (Pose3_inverse a) = Pose3_Identity.
Proof.
  intros (_ & Hr & _). destruct a as [r t]. unfold Pose3_compose, Pose3_inverse.
  simpl in *.
  rewrite Hr, <- Rot3_rotate_compose, Hr, Rot3_rotate_Identity, Vector3_add_neg_r.
  reflexivity.
Qed.

Lemma is_pose_Identity : is_pose Pose3_Identity.
Proof. apply is_rotation_Identity. Qed.

Lemma is_pose_translate (x y z : R) : is_pose (translate x y z).
Proof. apply is_rotation_Identity. Qed.

Lemma is_pose_inverse (a : Pose3) : is_pose a -> is_pose (Pose3_inverse a).
Proof. apply is_rotation_inverse. Qed.

Lemma is_pose_compose (a b : Pose3) :
  is_pose a -> is_pose b -> is_pose (Pose3_compose a b).
Proof. apply is_rotation_compose. Qed.

Lemma is_pose_between (a b : Pose3) :
  is_pose a -> is_pose b -> is_pose (Pose3_between a b).
Proof. intros Ha Hb. apply is_pose_compose; [apply is_pose_inverse|]; assumption. Qed.

(** In a group an inverse is unique. *)
Lemma Pose3_inverse_unique (a b : Pose3) :
  is_pose a -> Pose3_compose a b = Pose3_Identity -> b = Pose3_inverse a.
Proof.
  intros Ha Hab.
  rewrite <- (Pose3_compose_Identity_l b), <- (Pose3_inverse_l a Ha).
  rewrite Pose3_compose_assoc, Hab. apply Pose3_compose_Identity_r.
Qed.

Lemma Pose3_inverse_involutive (a : Pose3) :
  is_pose a -> Pose3_inverse (Pose3_inverse a) = a.
Proof.
  intros Ha. symmetry. apply Pose3_inverse_unique.
  - now apply is_pose_inverse.
  - now apply Pose3_inverse_l.
Qed.

Lemma Pose3_inverse_compose (a b : Pose3) :
  is_pose a -> is_pose b ->
  Pose3_inverse (Pose3_compose a b) = Pose3_compose (Pose3_inverse b) (Pose3_inverse a).
Proof.
  intros Ha Hb. symmetry. apply Pose3_inverse_unique.
  - now apply is_pose_compose.
  - rewrite Pose3_compose_assoc, <- (Pose3_compose_assoc b).
    rewrite (Pose3_inverse_r b Hb), Pose3_compose_Identity_l.
    now apply Pose3_inverse_r.
Qed.

(** [between(a, b)] and [between(b, a)] are inverse to each other. *)
Lemma Pose3_between_inverse (a b : Pose3) :
  is_pose a -> is_pose b ->
  Pose3_between b a = Pose3_inverse (Pose3_between a b).
Proof.
  intros Ha Hb. unfold Pose3_between.
  rewrite Pose3_inverse_compose by (try apply is_pose_inverse; assumption).
  now rewrite Pose3_inverse_involutive.
Qed.

Lemma Pose3_between_self (a : Pose3) :
  is_pose a -> Pose3_between a a = Pose3_Identity.
Proof. apply Pose3_inverse_l. Qed.

(** ** Norms *)

Lemma Vector3_norm_Zero : Vector3_norm Vector3_Zero = 0.
Proof.
  unfold Vector3_norm, Vector3_Zero; simpl.
  replace (0 * 0 + 0 * 0 + 0 * 0) with 0 by ring. apply sqrt_0.
Qed.

Lemma Vector3_norm_eq_0 (v : Vector3) : Vector3_norm v = 0 -> v = Vector3_Zero.
Proof.
  destruct v as [x y z]. unfold Vector3_norm, Vector3_Zero; simpl. intros Hn.
  apply sqrt_eq_0 in Hn; [|nra].
  assert (x = 0) by nra. assert (y = 0) by nra. assert (z = 0) by nra.
  now subst.
Qed.

(** ** The reference library's Euler angles *)

Lemma atan2_0_pos (x : R) : 0 < x -> atan2 0 x = 0.
Proof.
  intros Hx. unfold atan2. destruct (Rlt_dec 0 x); [|contradiction].
  unfold Rdiv. rewrite Rmult_0_l. apply atan_0.
Qed.

Lemma atan2_eq_0 (y x : R) : atan2 y x = 0 -> y = 0 /\ 0 <= x.
Proof.
  unfold atan2. pose proof PI_RGT_0 as Hpi.
  destruct (Rlt_dec 0 x) as [Hx|Hx].
  - intros Ha. apply atan_eq0 in Ha. split; [|lra].
    unfold Rdiv in Ha. apply Rmult_integral in Ha as [Hy|Hinv]; [assumption|].
    exfalso. apply (Rinv_neq_0_compat x); lra.
  - destruct (Rlt_dec x 0) as [Hx'|Hx'].
    + pose proof (atan_bound (y / x)) as [Hlo Hhi].
      destruct (Rle_dec 0 y); intros Ha; exfalso; lra.
    + destruct (Rlt_dec 0 y); [intros; exfalso; lra|].
      destruct (Rlt_dec y 0); [intros; exfalso; lra|].
      intros _. split; lra.
Qed.

Lemma Rot3_Rx_0 : Rot3_Rx (- 0) = Rot3_Identity.
Proof.
  unfold Rot3_Rx, Rot3_Identity. rewrite Ropp_0, cos_0, sin_0, Ropp_0. reflexivity.
Qed.

Lemma Rot3_Ry_0 : Rot3_Ry (- 0) = Rot3_Identity.
Proof.
  unfold Rot3_Ry, Rot3_Identity. rewrite Ropp_0, cos_0, sin_0, Ropp_0. reflexivity.
Qed.

(** The rotations about the first two axes are rotations: [is_rotation]
    holds of more than the identity. *)
Lemma is_rotation_Rx (t : R) : is_rotation (Rot3_Rx t).
Proof.
  pose proof (sin2_cos2 t) as Hsc. unfold Rsqr in Hsc.
  unfold is_rotation, Rot3_Rx, Rot3_compose, Rot3_inverse, Rot3_Identity,
    Rot3_det. simpl.
  repeat split; [f_equal; nra | f_equal; nra | nra].
Qed.

Lemma is_rotation_Ry (t : R) : is_rotation (Rot3_Ry t).
Proof.
  pose proof (sin2_cos2 t) as Hsc. unfold Rsqr in Hsc.
  unfold is_rotation, Rot3_Ry, Rot3_compose, Rot3_inverse, Rot3_Identity,
    Rot3_det. simpl.
  repeat split; [f_equal; nra | f_equal; nra | nra].
Qed.

(** The identity has roll, pitch and yaw zero. *)
Lemma RQ_xyz_Identity : RQ_xyz Rot3_Identity = Vector3_Zero.
Proof.
  assert (H0 : - atan2 (- 0) 1 = 0).
  { rewrite Ropp_0, atan2_0_pos by lra. apply Ropp_0. }
  assert (H1 : - atan2 0 1 = 0).
  { rewrite atan2_0_pos by lra. apply Ropp_0. }
  unfold RQ_xyz. cbn [r32 r33 Rot3_Identity]. rewrite H0, Rot3_Rx_0.
  rewrite Rot3_compose_Identity_l. cbn [r31 r33 Rot3_Identity].
  rewrite H1, Rot3_Ry_0, Rot3_compose_Identity_l. cbn [r21 r22 Rot3_Identity].
  rewrite H0. reflexivity.
Qed.

(** Only the identity has all three angles zero. *)
Lemma RQ_xyz_eq_Zero (a : Rot3) :
  is_rotation a -> RQ_xyz a = Vector3_Zero -> a = Rot3_Identity.
Proof.
  intros (Hl & Hr & Hd) Hxyz. unfold RQ_xyz, Vector3_Zero in Hxyz.
  injection Hxyz as Hx Hy Hz.
  rewrite Hx in Hy, Hz. rewrite ?Ropp_0, ?cos_0, ?sin_0 in Hy, Hz.
  rewrite Hy in Hz. rewrite ?Ropp_0, ?cos_0, ?sin_0 in Hz.
  apply Ropp_eq_0_compat in Hx, Hy, Hz. rewrite Ropp_involutive in Hx, Hy, Hz.
  apply atan2_eq_0 in Hx as [Hx Hx'], Hy as [Hy _], Hz as [Hz Hz'].
  destruct a as [a11 a12 a13 a21 a22 a23 a31 a32 a33].
  unfold Rot3_compose, Rot3_inverse, Rot3_Identity, Rot3_det in *. simpl in *.
  assert (a32 = 0) by lra. assert (a31 = 0) by lra. subst a31 a32.
  assert (a21 = 0) by lra. subst a21.
  injection Hl as _ _ _ _ Hc2 _ _ _ Hc3. injection Hr as _ _ _ _ Hr2 _ _ _ Hr3.
  assert (a33 = 1) by nra. subst a33.
  assert (a13 = 0) by nra. assert (a23 = 0) by nra. subst a13 a23.
  assert (a22 = 1) by nra. subst a22.
  assert (a12 = 0) by nra. subst a12.
  assert (a11 = 1) by nra. subst a11.
  reflexivity.
Qed.

(** ** The statements of [main], one by one *)

Lemma emit_nil (mem : Mem) : emit mem [] = mem.
Proof. destruct mem. unfold emit; simpl. now rewrite app_nil_r. Qed.

Lemma emit_emit (mem : Mem) (l1 l2 : list Line) :
  emit (emit mem l1) l2 = emit mem (l1 ++ l2).
Proof. unfold emit; simpl. now rewrite app_assoc. Qed.

Lemma print_emit (line : Line) (mem : Mem) :
  print line mem = (Returns tt, emit mem [line]).
Proof. reflexivity. Qed.

Lemma printed_emit {A : Type} (c : M A) (mem : Mem) (r : outcome A)
    (lines : list Line) :
  c mem = (r, emit mem lines) -> printed c mem = lines.
Proof.
  intros Hc. unfold printed. rewrite Hc. simpl. now rewrite drop_app_length.
Qed.

Section DriverProperties.
Context `{Gtsam}.

(** [between_block] prints the numbers of [computeResidual], or throws what
    it throws, having printed nothing. *)
Lemma between_block_computeResidual (b : BetweenFactorPose3) (mem : Mem) :
  between_block b mem =
  match computeResidual b (initial mem) with
  | inl e => (Throws e, mem)
  | inr (forward, backward) =>
      (Returns tt,
       emit mem [Node (key1 b) (key2 b);
                 TranslationDifference forward.1 forward.2;
                 TranslationDifferenceV2 backward.1 backward.2])
  end.
Proof.
  unfold between_block, computeResidual. unfold_monad.
  destruct (Values_at (initial mem) (key1 b)) as [e1|pose1]; [reflexivity|].
  destruct (Values_at (initial mem) (key2 b)) as [e2|pose2]; [reflexivity|].
  rewrite !print_emit, !emit_emit. reflexivity.
Qed.

Lemma diagnose_unfold (i : nat) (factor : NonlinearFactor) (mem : Mem) :
  diagnose i factor mem =
  match factor_error factor (initial mem) with
  | inl e => (Throws e, mem)
  | inr e =>
      let mem1 := emit mem [Separator; FactorError i e] in
      match factor with
      | Between b =>
          match computeResidual b (initial mem) with
          | inl ex => (Throws ex, mem1)
          | inr (forward, backward) =>
              (Returns tt,
               emit mem1 [Node (key1 b) (key2 b);
                          TranslationDifference forward.1 forward.2;
                          TranslationDifferenceV2 backward.1 backward.2])
          end
      | OtherFactor _ => (Returns tt, emit mem1 [NotBetweenFactor i])
      end
  end.
Proof.
  unfold diagnose. unfold_monad.
  destruct (factor_error factor (initial mem)) as [e|e]; [reflexivity|].
  rewrite !print_emit, emit_emit. simpl.
  destruct factor as [b|keys]; simpl.
  - now rewrite between_block_computeResidual.
  - now rewrite print_emit.
Qed.


Lemma diagnose_read_only (i : nat) (factor : NonlinearFactor) :
  read_only (diagnose i factor).
Proof.
  intros mem. rewrite diagnose_unfold.
  destruct (factor_error factor (initial mem)) as [e|e].
  { exists []. now rewrite emit_nil. }
  destruct factor as [b|keys]; cbn zeta.
  - destruct (computeResidual b (initial mem)) as [ex|[fw bw]]; simpl;
      rewrite ?emit_emit; eauto.
  - simpl. rewrite emit_emit. eauto.
Qed.

Lemma factor_body_unfold (i : nat) (mem : Mem) :
  factor_body i mem =
  match graph mem !! i with
  | Some factor => diagnose i factor mem
  | None => (Throws std_out_of_range, mem)
  end.
Proof.
  unfold factor_body, graph_at. unfold_monad.
  destruct (graph mem !! i); reflexivity.
Qed.

Lemma factor_body_read_only (i : nat) : read_only (factor_body i).
Proof.
  intros mem. rewrite factor_body_unfold. destruct (graph mem !! i).
  - apply diagnose_read_only.
  - exists []. now rewrite emit_nil.
Qed.

End DriverProperties.

(** ** The loop *)

Lemma for_loop_read_only (cond : nat -> Mem -> bool) (body : nat -> M unit) :
  (forall i, read_only (body i)) ->
  forall fuel i, read_only (for_loop fuel i cond body).
Proof.
  intros Hbody. induction fuel as [|fuel IH]; intros i mem; simpl.
  - exists []. now rewrite emit_nil.
  - destruct (cond i mem); [|exists []; now rewrite emit_nil].
    destruct (Hbody i mem) as [l1 Hl1].
    destruct (body i mem) as [[[]|e|] mem']; simpl in Hl1; subst mem'; eauto.
    destruct (IH (S i) (emit mem l1)) as [l2 Hl2].
    exists (l1 ++ l2). now rewrite Hl2, emit_emit.
Qed.

Section LoopProperties.
Context `{Gtsam}.

Lemma traverse_read_only (factors : list NonlinearFactor) :
  forall i, read_only (traverse i factors).
Proof.
  induction factors as [|factor rest IH]; intros i mem; simpl.
  - exists []. now rewrite emit_nil.
  - unfold mbind, M_bind.
    destruct (diagnose_read_only i factor mem) as [l1 Hl1].
    destruct (diagnose i factor mem) as [[[]|e|] mem']; simpl in Hl1; subst mem'; eauto.
    destruct (IH (S i) (emit mem l1)) as [l2 Hl2].
    exists (l1 ++ l2). now rewrite Hl2, emit_emit.
Qed.

(** With fuel for one test of the condition more than there are factors
    left, the loop is the in-order traversal of the factors from [i] on:
    it does not run out of fuel, and [graph[i]] is never out of range. *)
Lemma for_loop_traverse (fuel i : nat) (mem : Mem) :
  (length (graph mem) - i < fuel)%nat ->
  for_loop fuel i loop_cond factor_body mem
  = traverse i (drop i (graph mem)) mem.
Proof.
  revert i mem. induction fuel as [|fuel IH]; intros i mem Hfuel; [lia|].
  simpl. unfold loop_cond. case_bool_decide as Hi.
  - destruct (lookup_lt_is_Some_2 _ _ Hi) as [factor Hfactor].
    rewrite (drop_S _ _ _ Hfactor). simpl. unfold mbind, M_bind.
    rewrite factor_body_unfold, Hfactor.
    destruct (diagnose_read_only i factor mem) as [lines Hlines].
    destruct (diagnose i factor mem) as [[[]|e|] mem']; simpl in Hlines;
      subst mem'; try reflexivity.
    rewrite IH by (simpl; lia). reflexivity.
  - rewrite drop_ge by lia. reflexivity.
Qed.

Lemma factor_loop_traverse (fuel : nat) (mem : Mem) :
  (length (graph mem) < fuel)%nat ->
  factor_loop fuel mem = traverse 0 (graph mem) mem.
Proof.
  intros Hfuel. unfold factor_loop. rewrite for_loop_traverse by lia.
  now rewrite drop_0.
Qed.

Lemma computeResidual_present (b : BetweenFactorPose3) (values : Values)
    (pose1 pose2 : Pose3) :
  values !! key1 b = Some pose1 ->
  values !! key2 b = Some pose2 ->
  computeResidual b values =
  inr ((Vector3_norm (Pose3_translation
          (Pose3_between (measured b) (Pose3_between pose1 pose2))),
        Vector3_norm (Rot3_xyz (Pose3_rotation
          (Pose3_between (measured b) (Pose3_between pose1 pose2))))),
       (Vector3_norm (Pose3_translation
          (Pose3_between (measured b) (Pose3_between pose2 pose1))),
        Vector3_norm (Rot3_xyz (Pose3_rotation
          (Pose3_between (measured b) (Pose3_between pose2 pose1)))))).
Proof.
  intros H1 H2. unfold computeResidual, Values_at. now rewrite H1, H2.
Qed.

Lemma computeResidual_absent (b : BetweenFactorPose3) (values : Values) :
  values !! key1 b = None \/ values !! key2 b = None ->
  exists k, computeResidual b values = inl (ValuesKeyDoesNotExist k)
            /\ (k = key1 b \/ k = key2 b) /\ values !! k = None.
Proof.
  intros Habsent. unfold computeResidual, Values_at.
  destruct (values !! key1 b) as [pose1|] eqn:H1; [|eauto].
  destruct (values !! key2 b) as [pose2|] eqn:H2; [|eauto].
  destruct Habsent; discriminate.
Qed.


End LoopProperties.

(** ** Missing keys *)

Section MissingKey.
Context `{Gtsam}.

Lemma computeResidual_inr (b : BetweenFactorPose3) (values : Values)
    (r : (R * R) * (R * R)) :
  computeResidual b values = inr r ->
  is_Some (values !! key1 b) /\ is_Some (values !! key2 b).
Proof.
  unfold computeResidual, Values_at.
  destruct (values !! key1 b); [|discriminate].
  destruct (values !! key2 b); [|discriminate]. eauto.
Qed.

(** A traversal that meets a constraint on an absent key throws, at that
    constraint or before it: it prints no residual for that pair of keys
    and nothing about a later factor. *)
Lemma traverse_absent_key (factors : list NonlinearFactor) :
  forall j i mem b,
  factors !! j = Some (Between b) ->
  initial mem !! key1 b = None \/ initial mem !! key2 b = None ->
  exists e lines,
    traverse i factors mem = (Throws e, emit mem lines)
    /\ (Node (key1 b) (key2 b) ∉ lines)
    /\ (forall n x, FactorError n x ∈ lines -> (n <= i + j)%nat)
    /\ (forall n, NotBetweenFactor n ∈ lines -> (n < i + j)%nat).
Proof.
  induction factors as [|factor rest IH]; intros j i mem b Hj Habsent;
    [discriminate|].
  simpl. unfold mbind, M_bind. rewrite diagnose_unfold.
  destruct (factor_error factor (initial mem)) as [e|x].
  { exists e, []. rewrite emit_nil. repeat split; list_membership. }
  cbn zeta. destruct j as [|j]; simpl in Hj.
  - injection Hj as ->.
    destruct (computeResidual_absent b (initial mem) Habsent) as (k & -> & _).
    exists (ValuesKeyDoesNotExist k), [Separator; FactorError i x].
    repeat split; list_membership.
  - assert (Hrest : forall lines1, exists e lines,
      traverse (S i) rest (emit mem lines1) = (Throws e, emit mem (lines1 ++ lines))
      /\ (Node (key1 b) (key2 b) ∉ lines)
      /\ (forall n x, FactorError n x ∈ lines -> (n <= S i + j)%nat)
      /\ (forall n, NotBetweenFactor n ∈ lines -> (n < S i + j)%nat)).
    { intros lines1.
      destruct (IH j (S i) (emit mem lines1) b Hj Habsent) as (e & lines & Ht & ?).
      exists e, lines. now rewrite Ht, emit_emit. }
    destruct factor as [b'|keys].
    + destruct (computeResidual b' (initial mem)) as [ex|[fw bw]] eqn:Hb'.
      { exists ex, [Separator; FactorError i x]. repeat split; list_membership. }
      apply computeResidual_inr in Hb' as [[p1 Hk1] [p2 Hk2]].
      rewrite emit_emit.
      edestruct Hrest as (e & lines & -> & Hnode & Hfe & Hnb).
      eexists e, _. split; [reflexivity|].
      assert (Node (key1 b') (key2 b') <> Node (key1 b) (key2 b)).
      { intros [= Heq1 Heq2]. rewrite Heq1, Heq2 in *.
        destruct Habsent; congruence. }
      repeat split; list_membership.
    + rewrite emit_emit.
      edestruct Hrest as (e & lines & -> & Hnode & Hfe & Hnb).
      eexists e, _. split; [reflexivity|].
      repeat split; list_membership.
Qed.

End MissingKey.

(** C1 (as amended).  For a constraint with [key1] or [key2] absent from
    the pose estimate set, the residual computation fails with
    [ValuesKeyDoesNotExist] for an absent key of the constraint; nothing
    catches it, so the pass ends with an exception at that factor or before
    it: no residual line is printed for that pair of keys, nothing is
    printed about a later factor, and no "skipped" report exists. *)
Theorem C1_missing_key_ends_the_pass `{Gtsam} (g : NonlinearFactorGraph)
    (values : Values) (i : nat) (b : BetweenFactorPose3) (fuel : nat) :
  g !! i = Some (Between b) ->
  values !! key1 b = None \/ values !! key2 b = None ->
  (length g < fuel)%nat ->
  (exists k, computeResidual b values = inl (ValuesKeyDoesNotExist k)
             /\ (k = key1 b \/ k = key2 b) /\ values !! k = None)
  /\ exists e lines,
       factor_loop fuel (mkMem g values []) = (Throws e, mkMem g values lines)
       /\ (Node (key1 b) (key2 b) ∉ lines)
       /\ (forall n x, FactorError n x ∈ lines -> (n <= i)%nat)
       /\ (forall n, NotBetweenFactor n ∈ lines -> (n < i)%nat).
Proof.
  intros Hi Habsent Hfuel. split; [now apply computeResidual_absent|].
  rewrite factor_loop_traverse by assumption. cbn [graph].
  destruct (traverse_absent_key g i 0%nat (mkMem g values []) b Hi Habsent)
    as (e & lines & Ht & Hrest).
  exists e, lines. split; [exact Ht|exact Hrest].
Qed.

Lemma C1_missing_key_ends_the_pass_witness :
  (exists k,
      @computeResidual reference
        (mkBetweenFactorPose3 0%N 1%N Pose3_Identity) dangling_values
      = inl (ValuesKeyDoesNotExist k)
      /\ (k = 0%N \/ k = 1%N) /\ dangling_values !! k = None)
  /\ exists e lines,
       @factor_loop reference 3 (mkMem dangling_graph dangling_values [])
       = (Throws e, mkMem dangling_graph dangling_values lines)
       /\ (Node 0%N 1%N ∉ lines)
       /\ (forall n x, FactorError n x ∈ lines -> (n <= 0)%nat)
       /\ (forall n, NotBetweenFactor n ∈ lines -> (n < 0)%nat).
Proof.
  apply (@C1_missing_key_ends_the_pass reference dangling_graph dangling_values
           0%nat (mkBetweenFactorPose3 0%N 1%N Pose3_Identity) 3%nat).
  - reflexivity.
  - right. reflexivity.
  - simpl. lia.
Defined.

(** C1 as stated fails: on a graph whose first constraint names an absent
    key, with whatever library, the loop ends with an exception after at
    most the two lines that precede the lookup; the constraint is not
    reported as skipped and the factor after it is never visited. *)
Lemma C1_counterexample :
  dangling_graph !! 0%nat
    = Some (Between (mkBetweenFactorPose3 0%N 1%N Pose3_Identity))
  /\ dangling_values !! 1%N = None
  /\ forall (L : Gtsam) (fuel : nat),
       exists e lines,
         @factor_loop L (S fuel) (mkMem dangling_graph dangling_values [])
         = (Throws e, mkMem dangling_graph dangling_values lines)
         /\ (lines = [] \/ exists x, lines = [Separator; FactorError 0 x]).
Proof.
  split; [reflexivity|]. split; [reflexivity|]. intros L fuel.
  unfold factor_loop. simpl. rewrite factor_body_unfold. cbn [graph].
  change (dangling_graph !! 0%nat)
    with (Some (Between (mkBetweenFactorPose3 0%N 1%N Pose3_Identity))).
  cbn iota. rewrite diagnose_unfold. cbn [initial].
  destruct (factor_error _ _) as [e|x]; [eauto 6|].
  cbn zeta. unfold computeResidual, Values_at. simpl.
  change (dangling_values !! 0%N) with (Some Pose3_Identity).
  change (dangling_values !! 1%N) with (@None Pose3). cbn iota.
  eexists _, _. split; [reflexivity|]. eauto.
Qed.

Lemma elem_of_concat_imap {A B : Type} (f : nat -> A -> list B) (l : list A)
    (y : B) :
  y ∈ concat (imap f l) <-> exists i x, l !! i = Some x /\ y ∈ f i x.
Proof.
  rewrite list_elem_of_In, in_concat. split.
  - intros (ys & Hys & Hy). apply list_elem_of_In, elem_of_lookup_imap in Hys.
    destruct Hys as (i & x & -> & Hx). exists i, x.
    now rewrite list_elem_of_In.
  - intros (i & x & Hx & Hy). exists (f i x).
    rewrite <- !list_elem_of_In. split; [|assumption].
    now apply elem_of_lookup_imap_2.
Qed.





(** ** Frame: the pass only prints *)

Lemma read_only_bind {A B : Type} (c : M A) (k : A -> M B) :
  read_only c -> (forall a, read_only (k a)) -> read_only (c ≫= k).
Proof.
  intros Hc Hk mem. unfold mbind, M_bind. destruct (Hc mem) as [l1 Hl1].
  destruct (c mem) as [[a|e|] mem']; simpl in Hl1; subst mem'; eauto.
  destruct (Hk a (emit mem l1)) as [l2 Hl2].
  exists (l1 ++ l2). now rewrite Hl2, emit_emit.
Qed.

Lemma read_only_ret {A : Type} (a : A) : read_only (mret a).
Proof. intros mem. exists []. now rewrite emit_nil. Qed.

Lemma read_only_lift {A : Type} (r : exn + A) : read_only (lift r).
Proof. intros mem. exists []. rewrite emit_nil. now destruct r. Qed.

Lemma read_only_read {A : Type} (field : Mem -> A) : read_only (read field).
Proof. intros mem. exists []. now rewrite emit_nil. Qed.

Lemma read_only_print (line : Line) : read_only (print line).
Proof. intros mem. now exists [line]. Qed.

Lemma print_evaluated_emit (label : Line) (line : R -> Line)
    (value : exn + R) (mem : Mem) :
  print_evaluated label line value mem =
  match value with
  | inl e => (Throws e, emit mem [label])
  | inr x => (Returns tt, emit mem [line x])
  end.
Proof. destruct value; reflexivity. Qed.

Lemma read_only_print_evaluated (label : Line) (line : R -> Line)
    (value : exn + R) :
  read_only (print_evaluated label line value).
Proof.
  intros mem. rewrite print_evaluated_emit. destruct value; simpl; eauto.
Qed.

Lemma report_and_solve_read_only `{Gtsam} (fuel : nat) :
  read_only (report_and_solve fuel).
Proof.
  unfold report_and_solve, factor_loop.
  repeat first
    [ apply read_only_bind; [|intros ?]
    | apply read_only_read | apply read_only_lift | apply read_only_print
    | apply read_only_print_evaluated | apply read_only_ret
    | apply for_loop_read_only, factor_body_read_only ].
Qed.

(** C6.  Whatever the graph, the estimate, the library and the outcome,
    the per-factor loop leaves [graph] and [initial] as they were and only
    appends to the output; so does the rest of [main] after the load. *)
Theorem C6_pass_never_mutates `{Gtsam} (fuel : nat) (mem : Mem) :
  (graph (factor_loop fuel mem).2 = graph mem
   /\ initial (factor_loop fuel mem).2 = initial mem
   /\ exists lines, cout (factor_loop fuel mem).2 = cout mem ++ lines)
  /\ (graph (report_and_solve fuel mem).2 = graph mem
      /\ initial (report_and_solve fuel mem).2 = initial mem
      /\ exists lines, cout (report_and_solve fuel mem).2 = cout mem ++ lines).
Proof.
  split.
  - destruct (for_loop_read_only loop_cond factor_body factor_body_read_only
                fuel 0%nat mem) as [lines Hlines].
    unfold factor_loop. rewrite Hlines. simpl. eauto.
  - destruct (report_and_solve_read_only fuel mem) as [lines Hlines].
    rewrite Hlines. simpl. eauto.
Qed.

(** ** The command line *)

Lemma file_path_cases (argv : list string) :
  file_path argv
  = match argv with
    | _ :: arg :: _ => arg
    | _ => "data/2d/2d-1.g2o"%string
    end.
Proof. destruct argv as [|prog [|arg rest]]; reflexivity. Qed.

(** C10.  [main] loads through the loader at one point: the path is the
    hard-coded ["data/2d/2d-1.g2o"] when there is no argument and [argv[1]]
    as given otherwise, and the 3D flag is [true], whatever the input.
    Whatever loader the library has, the run of [main] is the loader's
    exception, with nothing printed, when the loader throws there, and the
    run of lines 18-57 on the graph and the estimate it returns there
    otherwise.  So a loader that differs anywhere else, at [is3D = false]
    in particular, gives the same run. *)
Theorem C10_loader_is_called_with_path_and_3D (L : Gtsam)
    (rd : string -> bool -> exn + (NonlinearFactorGraph * Values))
    (fuel : nat) (argv : list string) :
  let path := match argv with
              | _ :: arg :: _ => arg
              | _ => "data/2d/2d-1.g2o"%string
              end in
  file_path argv = path
  /\ @main (with_readG2o rd L) fuel argv
     = match rd path true with
       | inl e => (Throws e, [])
       | inr (g, values) =>
           let (r, mem) := @report_and_solve L fuel (mkMem g values []) in
           (r, cout mem)
       end
  /\ @main L fuel argv
     = match @readG2o L path true with
       | inl e => (Throws e, [])
       | inr (g, values) =>
           let (r, mem) := @report_and_solve L fuel (mkMem g values []) in
           (r, cout mem)
       end
  /\ (rd path true = @readG2o L path true ->
      @main (with_readG2o rd L) fuel argv = @main L fuel argv).
Proof.
  intros path.
  assert (Hpath : file_path argv = path) by apply file_path_cases.
  assert (Hrd : @main (with_readG2o rd L) fuel argv
                = match rd path true with
                  | inl e => (Throws e, [])
                  | inr (g, values) =>
                      let (r, mem) :=
                        @report_and_solve L fuel (mkMem g values []) in
                      (r, cout mem)
                  end).
  { unfold main. cbn [readG2o with_readG2o]. rewrite Hpath. cbn zeta.
    destruct (rd path true) as [e|[g values]]; reflexivity. }
  assert (HL : @main L fuel argv
               = match @readG2o L path true with
                 | inl e => (Throws e, [])
                 | inr (g, values) =>
                     let (r, mem) :=
                       @report_and_solve L fuel (mkMem g values []) in
                     (r, cout mem)
                 end).
  { unfold main. rewrite Hpath. cbn zeta.
    destruct (@readG2o L path true) as [e|[g values]]; reflexivity. }
  repeat split; [exact Hpath|exact Hrd|exact HL|].
  intros Hsame. now rewrite Hrd, HL, Hsame.
Qed.

(** A loader that knows no 2D graph at all. *)
Lemma C10_loader_is_called_with_path_and_3D_witness :
  let rd := fun path (is3D : bool) =>
              if is3D then reference_readG2o path true
              else inl (LibraryException "2D is not supported") in
  let argv := ["g2o-test"; "data/two_nodes.g2o"]%string in
  file_path argv = "data/two_nodes.g2o"%string
  /\ @main (with_readG2o rd reference) 2 argv = @main reference 2 argv.
Proof.
  pose proof (C10_loader_is_called_with_path_and_3D reference
                (fun path (is3D : bool) =>
                   if is3D then reference_readG2o path true
                   else inl (LibraryException "2D is not supported"))
                2 ["g2o-test"; "data/two_nodes.g2o"]%string)
    as (Hpath & _ & _ & Hsame).
  split; [exact Hpath|]. apply Hsame. reflexivity.
Defined.

(** ** Residuals *)

Lemma Pose3_eq (a b : Pose3) : R_ a = R_ b -> t_ a = t_ b -> a = b.
Proof. destruct a, b; simpl; intros -> ->; reflexivity. Qed.

Section Residuals.
Context `{Gtsam}.

(** What the statements below ask of [Rot3::xyz()]: the identity has zero
    angles, and it alone among rotations. *)
Hypothesis xyz_Identity : Rot3_xyz Rot3_Identity = Vector3_Zero.
Hypothesis xyz_faithful :
  forall r, is_rotation r -> Vector3_norm (Rot3_xyz r) = 0 -> r = Rot3_Identity.

Lemma residual_Identity :
  (Vector3_norm (Pose3_translation Pose3_Identity),
   Vector3_norm (Rot3_xyz (Pose3_rotation Pose3_Identity))) = (0, 0).
Proof.
  unfold Pose3_translation, Pose3_rotation, Pose3_Identity. cbn [R_ t_].
  now rewrite xyz_Identity, Vector3_norm_Zero.
Qed.

Lemma residual_zero_Identity (p : Pose3) :
  is_pose p ->
  (Vector3_norm (Pose3_translation p),
   Vector3_norm (Rot3_xyz (Pose3_rotation p))) = (0, 0) ->
  p = Pose3_Identity.
Proof.
  intros Hp [= Ht Hr]. apply Pose3_eq.
  - now apply xyz_faithful.
  - now apply Vector3_norm_eq_0.
Qed.

(** C2.  When the measured relative pose of a constraint is exactly
    [between(pose1, pose2)] for the two estimated poses, the forward
    difference is the identity transform and the forward residual pair,
    as computed and as printed, is (0, 0).  The two estimates are rigid
    transforms, and the library's angles of the identity are zero. *)
Theorem C2_exact_measurement_has_zero_forward_residual (values : Values)
    (b : BetweenFactorPose3) (pose1 pose2 : Pose3) :
  values !! key1 b = Some pose1 ->
  values !! key2 b = Some pose2 ->
  is_pose pose1 -> is_pose pose2 ->
  measured b = Pose3_between pose1 pose2 ->
  Pose3_between (measured b) (Pose3_between pose1 pose2) = Pose3_Identity
  /\ (exists backward, computeResidual b values = inr ((0, 0), backward))
  /\ forall mem, initial mem = values ->
       TranslationDifference 0 0 ∈ printed (between_block b) mem.
Proof using xyz_Identity.
  clear xyz_faithful. intros H1 H2 Hp1 Hp2 Hm.
  assert (Hdiff : Pose3_between (measured b) (Pose3_between pose1 pose2)
                  = Pose3_Identity).
  { rewrite <- Hm. apply Pose3_between_self. rewrite Hm.
    now apply is_pose_between. }
  assert (Hres : exists backward,
             computeResidual b values = inr ((0, 0), backward)).
  { rewrite (computeResidual_present b values pose1 pose2 H1 H2).
    rewrite Hdiff, residual_Identity. eauto. }
  repeat split; [exact Hdiff|exact Hres|].
  intros mem Hmem. destruct Hres as [backward Hres].
  erewrite printed_emit; cycle 1.
  { rewrite between_block_computeResidual, Hmem, Hres. reflexivity. }
  simpl. set_unfold. tauto.
Qed.

(** C9.  Under the same exact measurement the backward difference is
    [measured⁻¹ · measured⁻¹]; so when [measured · measured] is not the
    identity the backward residual pair is not (0, 0), although the forward
    pair is.  The two estimates are rigid transforms, and the library's
    angles are zero at the identity and at no other rotation. *)
Theorem C9_backward_residual_of_exact_measurement (values : Values)
    (b : BetweenFactorPose3) (pose1 pose2 : Pose3) :
  values !! key1 b = Some pose1 ->
  values !! key2 b = Some pose2 ->
  is_pose pose1 -> is_pose pose2 ->
  measured b = Pose3_between pose1 pose2 ->
  Pose3_between (measured b) (Pose3_between pose2 pose1)
  = Pose3_compose (Pose3_inverse (measured b)) (Pose3_inverse (measured b))
  /\ (Pose3_compose (measured b) (measured b) <> Pose3_Identity ->
      exists backward,
        computeResidual b values = inr ((0, 0), backward)
        /\ backward <> (0, 0)).
Proof.
  intros H1 H2 Hp1 Hp2 Hm.
  assert (Hpm : is_pose (measured b)) by (rewrite Hm; now apply is_pose_between).
  assert (Hdiff : Pose3_between (measured b) (Pose3_between pose2 pose1)
            = Pose3_compose (Pose3_inverse (measured b))
                            (Pose3_inverse (measured b))).
  { rewrite (Pose3_between_inverse pose1 pose2 Hp1 Hp2), <- Hm. reflexivity. }
  split; [exact Hdiff|]. intros Hsquare.
  rewrite (computeResidual_present b values pose1 pose2 H1 H2).
  rewrite <- Hm, (Pose3_between_self _ Hpm), residual_Identity.
  eexists. split; [reflexivity|]. rewrite Hdiff. intros Hzero.
  apply residual_zero_Identity in Hzero;
    [|now apply is_pose_compose; apply is_pose_inverse].
  apply Pose3_inverse_unique in Hzero; [|now apply is_pose_inverse].
  rewrite (Pose3_inverse_involutive _ Hpm) in Hzero.
  apply Hsquare. rewrite <- Hzero at 2. now apply Pose3_inverse_r.
Qed.

End Residuals.

(** ** Two poses on a line *)

Lemma Vector3_norm_along_x (a : R) : Vector3_norm (mkVector3 a 0 0) = Rabs a.
Proof.
  unfold Vector3_norm; simpl.
  replace (a * a + 0 * 0 + 0 * 0) with (Rsqr a) by (unfold Rsqr; ring).
  apply sqrt_Rsqr_abs.
Qed.

(** The differences the driver forms when all three poses are translations
    along the first axis. *)
Lemma diff_translate (m p1 p2 : R) :
  Pose3_between (translate m 0 0)
    (Pose3_between (translate p1 0 0) (translate p2 0 0))
  = translate (p2 - p1 - m) 0 0.
Proof. entrywise. Qed.

Lemma Pose3_inverse_translate (a : R) :
  Pose3_inverse (translate a 0 0) = translate (- a) 0 0.
Proof. entrywise. Qed.

Lemma translate_x_inj (a b : R) : translate a 0 0 = translate b 0 0 -> a = b.
Proof. now intros [=]. Qed.

Section Scenarios.
Context `{Gtsam}.

(** The residual pairs of a constraint between two estimated poses that
    are translations along the first axis, the measurement being one too. *)
Lemma computeResidual_translate (values : Values) (k1 k2 : Key) (m p1 p2 : R) :
  values !! k1 = Some (translate p1 0 0) ->
  values !! k2 = Some (translate p2 0 0) ->
  computeResidual (mkBetweenFactorPose3 k1 k2 (translate m 0 0)) values
  = inr ((Rabs (p2 - p1 - m), Vector3_norm (Rot3_xyz Rot3_Identity)),
         (Rabs (p1 - p2 - m), Vector3_norm (Rot3_xyz Rot3_Identity))).
Proof.
  intros H1 H2.
  rewrite (computeResidual_present
             (mkBetweenFactorPose3 k1 k2 (translate m 0 0)) values _ _ H1 H2).
  cbn [measured].
  rewrite !diff_translate. unfold Pose3_translation, Pose3_rotation, translate.
  cbn [R_ t_]. now rewrite !Vector3_norm_along_x.
Qed.

(** C4.  With the measurement kept, taking the two poses in the other
    order exchanges the forward and the backward residual pair: whether
    the constraint names its two keys in the other order, or the estimate
    holds the two poses at each other's key.  Both keys are in the
    estimate. *)
Theorem C4_swapping_the_poses_swaps_the_pairs (values : Values)
    (b : BetweenFactorPose3) (pose1 pose2 : Pose3) :
  values !! key1 b = Some pose1 ->
  values !! key2 b = Some pose2 ->
  exists forward backward,
    computeResidual b values = inr (forward, backward)
    /\ computeResidual (swap_keys b) values = inr (backward, forward)
    /\ computeResidual b (<[key1 b := pose2]> (<[key2 b := pose1]> values))
       = inr (backward, forward).
Proof.
  intros H1 H2. eexists _, _. split; [|split].
  - apply (computeResidual_present b values pose1 pose2 H1 H2).
  - apply (computeResidual_present (swap_keys b) values pose2 pose1 H2 H1).
  - apply computeResidual_present.
    + apply lookup_insert_eq.
    + destruct (decide (key1 b = key2 b)) as [Heq|Hne].
      * rewrite <- Heq, lookup_insert_eq. congruence.
      * rewrite lookup_insert_ne by assumption. apply lookup_insert_eq.
Qed.

(** C5.  The backward difference is not the inverse of the forward one:
    for two poses one metre apart and the exact measurement, the forward
    difference and its inverse are the identity (translation norm 0), the
    backward difference is a translation by two metres. *)
Theorem C5_backward_is_not_the_inverse_of_forward :
  exists pose1 pose2 measured,
    is_pose pose1 /\ is_pose pose2 /\ is_pose measured
    /\ Pose3_between measured (Pose3_between pose2 pose1)
       <> Pose3_inverse (Pose3_between measured (Pose3_between pose1 pose2))
    /\ Vector3_norm (Pose3_translation
         (Pose3_inverse (Pose3_between measured (Pose3_between pose1 pose2))))
       = 0
    /\ exists r r',
         computeResidual (mkBetweenFactorPose3 0%N 1%N measured)
           (<[0%N := pose1]> {[1%N := pose2]})
         = inr ((0, r), (2, r')).
Proof.
  exists (translate 0 0 0), (translate 1 0 0), (translate 1 0 0).
  repeat split; try apply is_rotation_Identity.
  - rewrite !diff_translate, Pose3_inverse_translate.
    intros Heq%translate_x_inj. lra.
  - rewrite diff_translate, Pose3_inverse_translate.
    unfold Pose3_translation, translate. cbn [t_].
    rewrite Vector3_norm_along_x.
    replace (- (1 - 0 - 1)) with 0 by ring. apply Rabs_R0.
  - eexists _, _. rewrite (computeResidual_translate _ _ _ 1 0 1);
      [|reflexivity|reflexivity].
    replace (1 - 0 - 1) with 0 by ring. replace (0 - 1 - 1) with (- (2)) by ring.
    rewrite Rabs_R0, Rabs_Ropp, (Rabs_pos_eq 2) by lra. reflexivity.
Qed.

Hypothesis xyz_Identity : Rot3_xyz Rot3_Identity = Vector3_Zero.

(** C7.  Two nodes, the first at the identity and the second at
    [translate(1,0,0)]: a measurement of [translate(1,0,0)] has the forward
    pair (0, 0); a measurement of [translate(2,0,0)] has forward
    translation norm 1, exactly, hence within 1e-9.  The two keys differ,
    and the library's angles of the identity are zero. *)
Theorem C7_two_node_scenarios (k1 k2 : Key) :
  k1 <> k2 ->
  let values : Values := <[k1 := Pose3_Identity]> {[k2 := translate 1 0 0]} in
  (exists backward,
      computeResidual (mkBetweenFactorPose3 k1 k2 (translate 1 0 0)) values
      = inr ((0, 0), backward))
  /\ (exists t backward,
        computeResidual (mkBetweenFactorPose3 k1 k2 (translate 2 0 0)) values
        = inr ((t, 0), backward)
        /\ t = 1 /\ Rabs (t - 1) <= 1 / 1000000000).
Proof.
  intros Hk values.
  assert (H1 : values !! k1 = Some (translate 0 0 0)) by apply lookup_insert_eq.
  assert (H2 : values !! k2 = Some (translate 1 0 0)).
  { unfold values. rewrite lookup_insert_ne by assumption.
    apply lookup_singleton_eq. }
  split.
  - rewrite (computeResidual_translate _ _ _ 1 0 1 H1 H2).
    rewrite xyz_Identity, Vector3_norm_Zero.
    replace (1 - 0 - 1) with 0 by ring. rewrite Rabs_R0. eauto.
  - rewrite (computeResidual_translate _ _ _ 2 0 1 H1 H2).
    rewrite xyz_Identity, Vector3_norm_Zero.
    replace (1 - 0 - 2) with (- (1)) by ring. rewrite Rabs_Ropp, Rabs_R1.
    eexists 1, _. split; [reflexivity|]. split; [reflexivity|].
    replace (1 - 1) with 0 by ring. rewrite Rabs_R0. lra.
Qed.

End Scenarios.

(** ** The statements at the reference library *)

Lemma RQ_xyz_faithful (r : Rot3) :
  is_rotation r -> Vector3_norm (RQ_xyz r) = 0 -> r = Rot3_Identity.
Proof. intros Hr Hn. apply RQ_xyz_eq_Zero; [assumption|]. now apply Vector3_norm_eq_0. Qed.

Lemma between_Identity_translate (x y z : R) :
  translate x y z = Pose3_between Pose3_Identity (translate x y z).
Proof. entrywise. Qed.

Lemma compose_translate_1_not_Identity :
  Pose3_compose (translate 1 0 0) (translate 1 0 0) <> Pose3_Identity.
Proof.
  unfold_geometry. simpl. intros [= Hx]. lra.
Qed.

Lemma C2_exact_measurement_has_zero_forward_residual_witness :
  Pose3_between (measured tilted_constraint)
    (Pose3_between tilted_pose1 tilted_pose2)
  = Pose3_Identity
  /\ (exists backward,
        @computeResidual reference tilted_constraint tilted_values
        = inr ((0, 0), backward))
  /\ forall mem, initial mem = tilted_values ->
       TranslationDifference 0 0
       ∈ printed (@between_block reference tilted_constraint) mem.
Proof.
  apply (@C2_exact_measurement_has_zero_forward_residual reference
           RQ_xyz_Identity tilted_values tilted_constraint
           tilted_pose1 tilted_pose2).
  - reflexivity.
  - reflexivity.
  - apply is_rotation_Rx.
  - apply is_rotation_Ry.
  - reflexivity.
Defined.

Lemma C9_backward_residual_of_exact_measurement_witness :
  exists backward,
    @computeResidual reference
      (mkBetweenFactorPose3 0%N 1%N (translate 1 0 0)) two_node_values
    = inr ((0, 0), backward)
    /\ backward <> (0, 0).
Proof.
  apply (@C9_backward_residual_of_exact_measurement reference
           RQ_xyz_Identity RQ_xyz_faithful two_node_values
           (mkBetweenFactorPose3 0%N 1%N (translate 1 0 0))
           Pose3_Identity (translate 1 0 0)).
  - reflexivity.
  - reflexivity.
  - apply is_pose_Identity.
  - apply is_pose_translate.
  - apply between_Identity_translate.
  - apply compose_translate_1_not_Identity.
Defined.

Lemma C4_swapping_the_poses_swaps_the_pairs_witness :
  let b := mkBetweenFactorPose3 0%N 1%N (translate 2 0 0) in
  exists forward backward,
    @computeResidual reference b two_node_values = inr (forward, backward)
    /\ @computeResidual reference (swap_keys b) two_node_values
       = inr (backward, forward)
    /\ @computeResidual reference b
         (<[0%N := translate 1 0 0]> (<[1%N := Pose3_Identity]> two_node_values))
       = inr (backward, forward).
Proof.
  apply (@C4_swapping_the_poses_swaps_the_pairs reference two_node_values
           (mkBetweenFactorPose3 0%N 1%N (translate 2 0 0))
           Pose3_Identity (translate 1 0 0)); reflexivity.
Defined.

Lemma C7_two_node_scenarios_witness :
  (exists backward,
      @computeResidual reference
        (mkBetweenFactorPose3 0%N 1%N (translate 1 0 0)) two_node_values
      = inr ((0, 0), backward))
  /\ (exists t backward,
        @computeResidual reference
          (mkBetweenFactorPose3 0%N 1%N (translate 2 0 0)) two_node_values
        = inr ((t, 0), backward)
        /\ t = 1 /\ Rabs (t - 1) <= 1 / 1000000000).
Proof.
  apply (@C7_two_node_scenarios reference RQ_xyz_Identity 0%N 1%N).
  discriminate.
Defined.

(** ** A run of [main] *)

Lemma reference_factor_error_two_node (m : R) :
  reference_factor_error
    (Between (mkBetweenFactorPose3 0%N 1%N (translate m 0 0))) two_node_values
  = inr (Rabs (1 - m) * Rabs (1 - m) / 2).
Proof.
  unfold reference_factor_error, Values_at. cbn [key1 key2 measured].
  change (two_node_values !! 0%N) with (Some (translate 0 0 0)).
  change (two_node_values !! 1%N) with (Some (translate 1 0 0)).
  cbn iota. rewrite diff_translate.
  unfold Pose3_translation, Pose3_rotation, translate. cbn [R_ t_].
  rewrite Vector3_norm_along_x, RQ_xyz_Identity, Vector3_norm_Zero.
  f_equal. replace (1 - 0 - m) with (1 - m) by ring. field.
Qed.

(** The program run on the one file of the reference file system: the
    constraint is met exactly, so every error is zero and the forward pair
    is (0, 0); the backward pair shows the two metres of C9. *)
Example main_two_nodes :
  @main reference 2 ["g2o-test"; "data/two_nodes.g2o"]%string
  = (Returns 0%Z,
     [InitialError 0; Separator; FactorError 0 0; Node 0%N 1%N;
      TranslationDifference 0 0; TranslationDifferenceV2 2 0;
      FinalError 0]).
Proof.
  assert (Hf : reference_factor_error
                 (Between (mkBetweenFactorPose3 0%N 1%N (translate 1 0 0)))
                 two_node_values = inr 0).
  { rewrite reference_factor_error_two_node. f_equal.
    replace (1 - 1) with 0 by ring. rewrite Rabs_R0. field. }
  assert (Hg : reference_graph_error (two_node_graph (translate 1 0 0))
                 two_node_values = inr 0).
  { unfold two_node_graph. cbn [reference_graph_error]. rewrite Hf.
    f_equal. ring. }
  assert (Hr : @computeResidual reference
                 (mkBetweenFactorPose3 0%N 1%N (translate 1 0 0))
                 two_node_values = inr ((0, 0), (2, 0))).
  { rewrite (@computeResidual_translate reference _ _ _ 1 0 1)
      by reflexivity.
    cbn [Rot3_xyz reference]. rewrite RQ_xyz_Identity, Vector3_norm_Zero.
    replace (1 - 0 - 1) with 0 by ring. replace (0 - 1 - 1) with (- (2)) by ring.
    now rewrite Rabs_R0, Rabs_Ropp, (Rabs_pos_eq 2) by lra. }
  unfold main. rewrite file_path_cases.
  change (readG2o "data/two_nodes.g2o" true)
    with (@inr exn _ (two_node_graph (translate 1 0 0), two_node_values)).
  cbn iota beta. unfold report_and_solve. unfold_monad.
  cbn [graph initial graph_error optimize reference reference_optimize].
  rewrite Hg, print_evaluated_emit, factor_loop_traverse by (simpl; lia).
  cbn [graph emit two_node_graph traverse]. unfold_monad.
  rewrite diagnose_unfold.
  cbn [initial emit factor_error reference]. rewrite Hf, Hr. cbn zeta iota beta.
  cbn [graph initial emit]. rewrite Hg, print_evaluated_emit. reflexivity.
Qed.

(** Without an argument the program asks for the hard-coded file, which
    the reference file system does not have: the loader's exception ends
    the run before anything is printed. *)
Example main_no_argument :
  @main reference 2 ["g2o-test"]%string
  = (Throws (LibraryException "cannot open file"), []).
Proof. reflexivity. Qed.

(** * More of [main] *)

(** ** The statements around the loop *)

Section MainProperties.
Context `{Gtsam}.

(** Lines 18-57 statement by statement: the error of the graph, the loop,
    the optimizer on the graph and the estimate as loaded, the error of the
    result.  A throw of [graph.error] leaves the label of its line. *)
Lemma report_and_solve_unfold (fuel : nat) (mem : Mem) :
  report_and_solve fuel mem =
  match graph_error (graph mem) (initial mem) with
  | inl e => (Throws e, emit mem [InitialErrorLabel])
  | inr e0 =>
      match factor_loop fuel (emit mem [InitialError e0]) with
      | (Returns _, mem1) =>
          match optimize (graph mem) (initial mem) params with
          | inl e => (Throws e, mem1)
          | inr result =>
              match graph_error (graph mem) result with
              | inl e => (Throws e, emit mem1 [FinalErrorLabel])
              | inr e1 => (Returns 0%Z, emit mem1 [FinalError e1])
              end
          end
      | (Throws e, mem1) => (Throws e, mem1)
      | (OutOfFuel, mem1) => (OutOfFuel, mem1)
      end
  end.
Proof.
  unfold report_and_solve. unfold_monad. rewrite print_evaluated_emit.
  destruct (graph_error (graph mem) (initial mem)) as [e|e0]; [reflexivity|].
  destruct (for_loop_read_only loop_cond factor_body factor_body_read_only
              fuel 0%nat (emit mem [InitialError e0])) as [lines Hlines].
  fold (factor_loop fuel) in Hlines.
  destruct (factor_loop fuel (emit mem [InitialError e0])) as [[[]|e|] mem1];
    try reflexivity.
  simpl in Hlines. subst mem1. cbn [graph initial emit].
  destruct (optimize (graph mem) (initial mem) params) as [e|result];
    [reflexivity|].
  rewrite print_evaluated_emit.
  destruct (graph_error (graph mem) result) as [e|e1]; reflexivity.
Qed.

End MainProperties.

(** ** Every run of the loop *)

Section EveryRun.
Context `{Gtsam}.

Lemma computeResidual_inl (b : BetweenFactorPose3) (values : Values) (e : exn) :
  computeResidual b values = inl e ->
  exists k, e = ValuesKeyDoesNotExist k
            /\ (k = key1 b \/ k = key2 b) /\ values !! k = None.
Proof.
  unfold computeResidual, Values_at.
  destruct (values !! key1 b) eqn:H1; [|intros [= <-]; eauto].
  destruct (values !! key2 b) eqn:H2; [discriminate|intros [= <-]; eauto].
Qed.

(** One visit either returns, having printed the report of the factor, or
    throws as [throws_at] says. *)
Lemma diagnose_cases (i : nat) (factor : NonlinearFactor) (mem : Mem) :
  (diagnosable (initial mem) factor
   /\ diagnose i factor mem
      = (Returns tt, emit mem (factor_report (initial mem) i factor)))
  \/ (exists e tail,
        throws_at (initial mem) i factor e tail
        /\ diagnose i factor mem = (Throws e, emit mem tail)).
Proof.
  rewrite diagnose_unfold. unfold diagnosable, throws_at, factor_report.
  destruct (factor_error factor (initial mem)) as [e|x].
  { right. exists e, []. rewrite emit_nil. auto. }
  cbn zeta. destruct factor as [b|keys].
  - destruct (computeResidual b (initial mem)) as [e|[fw bw]] eqn:Hb.
    + right. exists e, [Separator; FactorError i x]. split; [|reflexivity].
      right. exists x, b. auto.
    + left. rewrite emit_emit. split; [|reflexivity].
      split; [eauto|]. intros b' [= <-]. eauto.
  - left. rewrite emit_emit. split; [|reflexivity].
    split; [eauto|]. discriminate.
Qed.

(** The traversal prints the reports of the factors before the first one
    whose visit throws, then what that visit printed before it threw. *)
Lemma traverse_outcome (factors : list NonlinearFactor) :
  forall i mem, exists n tail r,
    traverse i factors mem
    = (r, emit mem
            (concat (imap (fun j => factor_report (initial mem) (i + j))
                          (take n factors)) ++ tail))
    /\ Forall (diagnosable (initial mem)) (take n factors)
    /\ ((r = Returns tt /\ n = length factors /\ tail = [])
        \/ (exists factor e,
              factors !! n = Some factor /\ r = Throws e
              /\ throws_at (initial mem) (i + n) factor e tail)).
Proof.
  induction factors as [|factor rest IH]; intros i mem.
  - exists 0%nat, [], (Returns tt). simpl. rewrite emit_nil.
    split; [reflexivity|]. split; [constructor|]. left. auto.
  - simpl. unfold mbind, M_bind.
    destruct (diagnose_cases i factor mem) as [[Hok ->]|(e & tail & Hthrow & ->)].
    + destruct (IH (S i) (emit mem (factor_report (initial mem) i factor)))
        as (n & tail & r & -> & Hall & Hend).
      exists (S n), tail, r. cbn [initial emit] in *. split; [|split].
      * rewrite emit_emit. simpl. rewrite Nat.add_0_r, <- app_assoc.
        rewrite (imap_ext (fun j => factor_report (initial mem) (S (i + j)))
                   ((fun j => factor_report (initial mem) (i + j)) ∘ S));
          [reflexivity|].
        intros j x _. simpl. f_equal. lia.
      * simpl. now constructor.
      * destruct Hend as [(-> & -> & ->)|(f & e & Hf & -> & Ht)]; [left; auto|].
        right. exists f, e. simpl. rewrite <- Nat.add_succ_comm. auto.
    + exists 0%nat, tail, (Throws e). simpl. split; [reflexivity|].
      split; [constructor|]. right. exists factor, e.
      rewrite Nat.add_0_r. auto.
Qed.

End EveryRun.

Section LoopRuns.
Context `{Gtsam}.

Lemma factor_report_sound (g : NonlinearFactorGraph) (values : Values)
    (i : nat) (factor : NonlinearFactor) (line : Line) :
  g !! i = Some factor ->
  diagnosable values factor ->
  line ∈ factor_report values i factor ->
  line_sound g values line.
Proof.
  intros Hi [[e He] Hres] Hin. unfold factor_report in Hin. rewrite He in Hin.
  destruct factor as [b|keys].
  - destruct (Hres b eq_refl) as [[fw bw] Hb]. rewrite Hb in Hin.
    pose proof (list_elem_of_lookup_2 _ _ _ Hi) as Hg.
    destruct (computeResidual_inr _ _ _ Hb) as [Hk1 Hk2].
    destruct fw as [t r], bw as [t' r'], b as [k1 k2 m]. simpl in *.
    set_unfold. intuition (subst; simpl; eauto 8).
  - set_unfold. intuition (subst; simpl; eauto).
Qed.

(** Every run of the loop with enough fuel, from any state: it ends
    returning or throwing, and has printed the reports of the factors before
    the first one whose visit throws, then what that visit printed; every
    line of it is sound. *)
Lemma factor_loop_run (g : NonlinearFactorGraph) (values : Values)
    (out0 : list Line) (fuel : nat) :
  (length g < fuel)%nat ->
  exists n tail r,
    factor_loop fuel (mkMem g values out0)
    = (r, mkMem g values
            (out0 ++ concat (imap (factor_report values) (take n g)) ++ tail))
    /\ Forall (diagnosable values) (take n g)
    /\ ((r = Returns tt /\ n = length g /\ tail = [])
        \/ (exists factor e,
              g !! n = Some factor /\ r = Throws e
              /\ throws_at values n factor e tail))
    /\ Forall (line_sound g values)
         (concat (imap (factor_report values) (take n g)) ++ tail).
Proof.
  intros Hfuel. rewrite factor_loop_traverse by assumption. cbn [graph].
  destruct (traverse_outcome g 0%nat (mkMem g values out0))
    as (n & tail & r & Ht & Hall & Hend).
  cbn [initial Nat.add] in *. exists n, tail, r.
  split; [exact Ht|]. split; [exact Hall|]. split; [exact Hend|].
  apply Forall_forall. intros line Hin. apply elem_of_app in Hin as [Hin|Hin].
  - apply elem_of_concat_imap in Hin as (i & factor & Hi & Hin).
    apply lookup_take_Some in Hi as [Hi Hlt].
    apply (factor_report_sound g values i factor); [assumption| |assumption].
    rewrite Forall_forall in Hall. apply Hall.
    apply list_elem_of_lookup. exists i. now apply lookup_take_Some.
  - destruct Hend as [(_ & _ & ->)|(factor & e & Hn & _ & Hthrow)];
      [set_solver|].
    destruct Hthrow as [[_ ->]|(x & b & Hx & _ & _ & ->)]; [set_solver|].
    set_unfold. intuition (subst; simpl; eauto).
Qed.

End LoopRuns.

(** ** Every run of [main] *)

Section MainRuns.
Context `{Gtsam}.

(** [main] once the graph is loaded, with enough fuel: the first line, the
    lines of the loop as [factor_loop_run] gives them, and the last line
    when the loop and the three library calls after it return. *)
Lemma main_run (fuel : nat) (argv : list string) (g : NonlinearFactorGraph)
    (values : Values) :
  readG2o (file_path argv) true = inr (g, values) ->
  (length g < fuel)%nat ->
  match graph_error g values with
  | inl e => main fuel argv = (Throws e, [InitialErrorLabel])
  | inr e0 =>
      exists n tail r,
        let lines := concat (imap (factor_report values) (take n g)) ++ tail in
        Forall (diagnosable values) (take n g)
        /\ ((r = Returns tt /\ n = length g /\ tail = [])
            \/ (exists factor e,
                  g !! n = Some factor /\ r = Throws e
                  /\ throws_at values n factor e tail))
        /\ Forall (line_sound g values) lines
        /\ main fuel argv =
           match r with
           | Returns _ =>
               match optimize g values params with
               | inl e => (Throws e, InitialError e0 :: lines)
               | inr result =>
                   match graph_error g result with
                   | inl e =>
                       (Throws e,
                        InitialError e0 :: lines ++ [FinalErrorLabel])
                   | inr e1 =>
                       (Returns 0%Z,
                        InitialError e0 :: lines ++ [FinalError e1])
                   end
               end
           | Throws e => (Throws e, InitialError e0 :: lines)
           | OutOfFuel => (OutOfFuel, InitialError e0 :: lines)
           end
  end.
Proof.
  intros Hload Hfuel. unfold main. cbn zeta. rewrite Hload.
  rewrite report_and_solve_unfold. cbn [graph initial].
  destruct (graph_error g values) as [e|e0]; [reflexivity|].
  destruct (factor_loop_run g values [InitialError e0] fuel Hfuel)
    as (n & tail & r & Hrun & Hall & Hend & Hsound).
  exists n, tail, r. cbn zeta. split; [exact Hall|]. split; [exact Hend|].
  split; [exact Hsound|].
  unfold emit at 1. cbn [graph initial cout app]. rewrite Hrun.
  destruct r as [[]|e|]; try reflexivity.
  destruct (optimize g values params) as [e|result]; [reflexivity|].
  destruct (graph_error g result) as [e|e1]; reflexivity.
Qed.

End MainRuns.

Section MainTheorems.
Context `{Gtsam}.

Lemma throws_at_not_diagnosable (values : Values) (i : nat)
    (factor : NonlinearFactor) (e : exn) (tail : list Line) :
  throws_at values i factor e tail -> diagnosable values factor -> False.
Proof.
  intros [[He _]|(x & b & _ & -> & Hb & _)] [[e' He'] Hres].
  - congruence.
  - destruct (Hres b eq_refl) as [r Hr]. congruence.
Qed.

(** X1.  When the loader, both evaluations of the graph error, the
    optimizer and the visit of every factor return, [main] returns 0 and
    has printed: the error of the graph at the initial estimate, the report
    of every factor in order, the error of the graph at the optimizer's
    result. *)
Theorem X1_main_output_when_nothing_throws (fuel : nat) (argv : list string)
    (g : NonlinearFactorGraph) (values result : Values) (e0 e1 : R) :
  readG2o (file_path argv) true = inr (g, values) ->
  (length g < fuel)%nat ->
  graph_error g values = inr e0 ->
  Forall (diagnosable values) g ->
  optimize g values params = inr result ->
  graph_error g result = inr e1 ->
  main fuel argv
  = (Returns 0%Z,
     InitialError e0 :: concat (imap (factor_report values) g)
       ++ [FinalError e1]).
Proof.
  intros Hload Hfuel He0 Hall Hopt He1.
  pose proof (main_run fuel argv g values Hload Hfuel) as Hrun.
  rewrite He0 in Hrun. destruct Hrun as (n & tail & r & _ & Hend & _ & ->).
  destruct Hend as [(-> & -> & ->)|(factor & e & Hn & _ & Hthrow)].
  - rewrite Hopt, He1, firstn_all, app_nil_r. reflexivity.
  - exfalso. apply (throws_at_not_diagnosable _ _ _ _ _ Hthrow).
    rewrite Forall_forall in Hall. apply Hall.
    now apply list_elem_of_lookup_2 in Hn.
Qed.

(** X2.  With enough fuel for the graph the loader gives, [main] ends in
    one of two ways: it returns 0 and the last line is the final error, the
    only such line; or it throws and no final-error line was printed. *)
Theorem X2_returns_exactly_when_final_error_is_printed (fuel : nat)
    (argv : list string) :
  (forall g values, readG2o (file_path argv) true = inr (g, values) ->
                    (length g < fuel)%nat) ->
  (exists out e1,
      main fuel argv = (Returns 0%Z, out ++ [FinalError e1])
      /\ forall x, FinalError x ∉ out)
  \/ (exists e out,
        main fuel argv = (Throws e, out) /\ forall x, FinalError x ∉ out).
Proof.
  intros Hfuel.
  destruct (readG2o (file_path argv) true) as [e|[g values]] eqn:Hload.
  { right. exists e, []. unfold main. cbn zeta. rewrite Hload.
    split; [reflexivity|]. intros x. apply not_elem_of_nil. }
  pose proof (main_run fuel argv g values Hload (Hfuel g values eq_refl)) as Hrun.
  destruct (graph_error g values) as [e|e0].
  { right. exists e, [InitialErrorLabel]. split; [exact Hrun|].
    intros x [[=]|[]%elem_of_nil]%elem_of_cons. }
  destruct Hrun as (n & tail & r & _ & Hend & Hsound & ->). cbn zeta in *.
  set (lines := concat (imap (factor_report values) (take n g)) ++ tail) in *.
  assert (Hno : forall x, FinalError x ∉ InitialError e0 :: lines).
  { intros x [[=]|Hin]%elem_of_cons. rewrite Forall_forall in Hsound.
    exact (Hsound _ Hin). }
  destruct Hend as [(-> & _ & _)|(factor & e & _ & -> & _)]; [|right; eauto].
  destruct (optimize g values params) as [e|result]; [right; eauto|].
  destruct (graph_error g result) as [e|e1].
  - right. exists e, (InitialError e0 :: lines ++ [FinalErrorLabel]).
    split; [reflexivity|]. intros x. rewrite app_comm_cons.
    intros [Hin|[[=]|[]%elem_of_nil]%elem_of_cons]%elem_of_app.
    exact (Hno x Hin).
  - left. exists (InitialError e0 :: lines), e1. auto.
Qed.

(** X5.  Every line [main] prints is a value of the library at the graph
    and estimate the loader gave: the first line their error, a line of the
    loop what [line_sound] says, the last line the error of the graph at
    the optimizer's result.  The only other thing on the stream is the
    label of the first or of the last line, left unfinished when the
    evaluation of that error threw. *)
Theorem X5_every_printed_line_is_sound (fuel : nat) (argv : list string)
    (g : NonlinearFactorGraph) (values : Values) :
  readG2o (file_path argv) true = inr (g, values) ->
  (length g < fuel)%nat ->
  forall line, line ∈ (main fuel argv).2 ->
    line_sound g values line
    \/ (exists e, line = InitialError e /\ graph_error g values = inr e)
    \/ (exists e result,
          line = FinalError e /\ optimize g values params = inr result
          /\ graph_error g result = inr e)
    \/ (exists e, line = InitialErrorLabel /\ graph_error g values = inl e)
    \/ (exists e result,
          line = FinalErrorLabel /\ optimize g values params = inr result
          /\ graph_error g result = inl e).
Proof.
  intros Hload Hfuel line.
  pose proof (main_run fuel argv g values Hload Hfuel) as Hrun.
  destruct (graph_error g values) as [e|e0].
  { rewrite Hrun. simpl. intros ->%list_elem_of_singleton.
    do 3 right. left. eauto. }
  destruct Hrun as (n & tail & r & _ & _ & Hsound & ->). cbn zeta in *.
  rewrite Forall_forall in Hsound.
  set (lines := concat (imap (factor_report values) (take n g)) ++ tail) in *.
  assert (Hfirst : forall P : Prop, line ∈ InitialError e0 :: lines ->
            line_sound g values line
            \/ (exists e, line = InitialError e /\ inr e0 = @inr exn R e)
            \/ P).
  { intros P [->|Hin]%elem_of_cons; [right; left; eauto|left; auto]. }
  destruct r as [[]|e|]; simpl; try apply Hfirst.
  destruct (optimize g values params) as [e|result]; simpl; try apply Hfirst.
  destruct (graph_error g result) as [e|e1] eqn:He1; simpl;
    rewrite app_comm_cons; intros [Hin|Hin]%elem_of_app;
    try (now apply Hfirst);
    apply list_elem_of_singleton in Hin as ->.
  - do 4 right. eauto.
  - do 2 right. left. eauto.
Qed.

(** X6.  With enough fuel [main] does not run out of it, and an exception
    that leaves [main] after the load is one a library call threw (the
    graph error, the error of a factor of the graph, the optimizer) or the
    missing key of a constraint of the graph: [graph[i]] is never out of
    range. *)
Theorem X6_where_an_exception_comes_from (fuel : nat) (argv : list string)
    (g : NonlinearFactorGraph) (values : Values) :
  readG2o (file_path argv) true = inr (g, values) ->
  (length g < fuel)%nat ->
  (main fuel argv).1 <> OutOfFuel
  /\ forall e, (main fuel argv).1 = Throws e ->
       graph_error g values = inl e
       \/ (exists factor, factor ∈ g /\ factor_error factor values = inl e)
       \/ (exists b k, Between b ∈ g /\ e = ValuesKeyDoesNotExist k
                       /\ (k = key1 b \/ k = key2 b) /\ values !! k = None)
       \/ optimize g values params = inl e
       \/ (exists result, optimize g values params = inr result
                          /\ graph_error g result = inl e).
Proof.
  intros Hload Hfuel.
  pose proof (main_run fuel argv g values Hload Hfuel) as Hrun.
  destruct (graph_error g values) as [e0|e0].
  { rewrite Hrun. simpl. split; [discriminate|]. intros e [= <-]. auto. }
  destruct Hrun as (n & tail & r & _ & Hend & _ & ->). cbn zeta.
  destruct Hend as [(-> & _ & _)|(factor & e' & Hn & -> & Hthrow)].
  - destruct (optimize g values params) as [e'|result]; simpl.
    { split; [discriminate|]. intros e [= <-]. auto 6. }
    destruct (graph_error g result) as [e'|e1] eqn:He1; simpl.
    { split; [discriminate|]. intros e [= <-]. do 4 right. eauto. }
    split; discriminate.
  - simpl. split; [discriminate|]. intros e [= <-].
    apply list_elem_of_lookup_2 in Hn.
    destruct Hthrow as [[He _]|(x & b & _ & -> & Hb & _)]; [eauto 6|].
    apply computeResidual_inl in Hb as (k & -> & Hk & Habsent).
    right; right; left. eauto 8.
Qed.

(** X7.  What [main] has written when it fails early: nothing when the
    loader throws; the label of the first line and no more, the line left
    unfinished, when the first evaluation of the graph error throws.  In
    both cases [main] ends with the exception of the call that failed.
    Otherwise the first line printed is that error.  This holds for every
    fuel. *)
Theorem X7_first_line_or_its_label (fuel : nat) (argv : list string) :
  match readG2o (file_path argv) true with
  | inl e => main fuel argv = (Throws e, [])
  | inr (g, values) =>
      match graph_error g values with
      | inl e => main fuel argv = (Throws e, [InitialErrorLabel])
      | inr e0 => exists rest, (main fuel argv).2 = InitialError e0 :: rest
      end
  end.
Proof.
  unfold main. cbn zeta.
  destruct (readG2o (file_path argv) true) as [e|[g values]]; [reflexivity|].
  rewrite report_and_solve_unfold. cbn [graph initial].
  destruct (graph_error g values) as [e|e0]; [reflexivity|].
  destruct (for_loop_read_only loop_cond factor_body factor_body_read_only
              fuel 0%nat (emit (mkMem g values []) [InitialError e0]))
    as [lines Hlines].
  fold (factor_loop fuel) in Hlines.
  destruct (factor_loop fuel _) as [[[]|e|] mem1]; simpl in Hlines; subst mem1;
    try (simpl; eauto; fail).
  destruct (optimize g values params) as [e|result]; [simpl; eauto|].
  destruct (graph_error g result) as [e|e1]; simpl; eauto.
Qed.

End MainTheorems.

(** X4.  Every run of the loop with enough fuel ends returning or
    throwing, and what it printed is the reports, in order, of the factors
    before the first one whose visit throws, followed by what that visit
    printed before it threw: nothing when [factor->error] threw, the
    separator and the error line when a lookup did.  It returns exactly
    when no visit throws. *)
Theorem X4_loop_prints_a_prefix_of_the_reports `{Gtsam}
    (g : NonlinearFactorGraph) (values : Values) (fuel : nat) :
  (length g < fuel)%nat ->
  exists n tail r,
    factor_loop fuel (mkMem g values [])
    = (r, mkMem g values
            (concat (imap (factor_report values) (take n g)) ++ tail))
    /\ Forall (diagnosable values) (take n g)
    /\ ((r = Returns tt /\ n = length g /\ tail = [])
        \/ (exists factor e,
              g !! n = Some factor /\ r = Throws e
              /\ throws_at values n factor e tail)).
Proof.
  intros Hfuel.
  destruct (factor_loop_run g values [] fuel Hfuel)
    as (n & tail & r & Hrun & Hall & Hend & _).
  exists n, tail, r. repeat split; assumption.
Qed.

(** X3.  When the load, the first evaluation of the graph error and the
    visit of every factor return, [main] calls the optimizer, whichever it
    is, on the graph and the initial estimate as the loader gave them (the
    loop has changed neither) with the parameters of lines 51-53, error
    tolerance 1e-8 and 1000 iterations: the run ends with the optimizer's
    exception when it throws there, and with the error of the graph at the
    estimate it returns there otherwise. *)
Theorem X3_optimizer_gets_the_loaded_graph_and_estimate (L : Gtsam)
    (opt : NonlinearFactorGraph -> Values -> LevenbergMarquardtParams
           -> exn + Values)
    (fuel : nat) (argv : list string) (g : NonlinearFactorGraph)
    (values : Values) (e0 : R) :
  @readG2o L (file_path argv) true = inr (g, values) ->
  (length g < fuel)%nat ->
  @graph_error L g values = inr e0 ->
  Forall (@diagnosable L values) g ->
  let lines :=
    InitialError e0 :: concat (imap (@factor_report L values) g) in
  @main (with_optimize opt L) fuel argv
  = match opt g values (mkParams (1 / 100000000) 1000) with
    | inl e => (Throws e, lines)
    | inr result =>
        match @graph_error L g result with
        | inl e => (Throws e, lines ++ [FinalErrorLabel])
        | inr e1 => (Returns 0%Z, lines ++ [FinalError e1])
        end
    end.
Proof.
  intros Hload Hfuel He0 Hall lines.
  pose proof (@main_run (with_optimize opt L) fuel argv g values Hload Hfuel)
    as Hrun.
  cbn [graph_error optimize with_optimize] in Hrun. rewrite He0 in Hrun.
  destruct Hrun as (n & tail & r & _ & Hend & _ & ->).
  destruct Hend as [(-> & -> & ->)|(factor & e & Hn & _ & Hthrow)].
  - rewrite firstn_all, app_nil_r. reflexivity.
  - exfalso. apply (@throws_at_not_diagnosable L _ _ _ _ _ Hthrow).
    rewrite Forall_forall in Hall. apply Hall.
    now apply list_elem_of_lookup_2 in Hn.
Qed.

(** ** What the printed numbers measure *)

Lemma Vector3_norm_neg (v : Vector3) :
  Vector3_norm (Vector3_neg v) = Vector3_norm v.
Proof.
  destruct v as [x y z]. unfold Vector3_norm, Vector3_neg; simpl. f_equal. ring.
Qed.

(** An orthogonal matrix keeps lengths. *)
Lemma Rot3_rotate_norm (a : Rot3) (v : Vector3) :
  Rot3_compose (Rot3_inverse a) a = Rot3_Identity ->
  Vector3_norm (Rot3_rotate a v) = Vector3_norm v.
Proof.
  destruct a as [a11 a12 a13 a21 a22 a23 a31 a32 a33], v as [x y z].
  unfold Rot3_compose, Rot3_inverse, Rot3_Identity, Rot3_rotate, Vector3_norm.
  simpl. intros [= H11 H12 H13 H21 H22 H23 H31 H32 H33]. f_equal.
  replace ((a11 * x + a12 * y + a13 * z) * (a11 * x + a12 * y + a13 * z)
           + (a21 * x + a22 * y + a23 * z) * (a21 * x + a22 * y + a23 * z)
           + (a31 * x + a32 * y + a33 * z) * (a31 * x + a32 * y + a33 * z))
    with (x * x * (a11 * a11 + a21 * a21 + a31 * a31)
          + y * y * (a12 * a12 + a22 * a22 + a32 * a32)
          + z * z * (a13 * a13 + a23 * a23 + a33 * a33)
          + 2 * x * y * (a11 * a12 + a21 * a22 + a31 * a32)
          + 2 * x * z * (a11 * a13 + a21 * a23 + a31 * a33)
          + 2 * y * z * (a12 * a13 + a22 * a23 + a32 * a33)) by ring.
  rewrite H11, H22, H33, H12, H13, H23. ring.
Qed.

Lemma Rot3_inverse_rotate_norm (a : Rot3) (v : Vector3) :
  is_rotation a ->
  Vector3_norm (Rot3_rotate (Rot3_inverse a) v) = Vector3_norm v.
Proof.
  intros (_ & Hr & _). apply Rot3_rotate_norm.
  now rewrite Rot3_inverse_involutive.
Qed.

(** The translation of [between(a, b)] is the difference of the two
    translations, seen from [a]. *)
Lemma Pose3_between_translation (a b : Pose3) :
  t_ (Pose3_between a b)
  = Rot3_rotate (Rot3_inverse (R_ a)) (Vector3_sub (t_ b) (t_ a)).
Proof. entrywise. Qed.

Lemma Pose3_between_translation_norm (a b : Pose3) :
  is_pose a ->
  Vector3_norm (Pose3_translation (Pose3_between a b))
  = Vector3_norm (Vector3_sub (t_ b) (t_ a)).
Proof.
  intros Ha. unfold Pose3_translation.
  rewrite Pose3_between_translation. now apply Rot3_inverse_rotate_norm.
Qed.

Lemma Vector3_sub_Zero_r (v : Vector3) : Vector3_sub v Vector3_Zero = v.
Proof. unfold Vector3_sub. entrywise. Qed.

Lemma Vector3_norm_sub_swap (a b : Vector3) :
  Vector3_norm (Vector3_sub a b) = Vector3_norm (Vector3_sub b a).
Proof.
  rewrite <- (Vector3_norm_neg (Vector3_sub b a)). f_equal.
  unfold Vector3_sub. entrywise.
Qed.

Lemma Vector3_sub_compose (g : Pose3) (p q : Vector3) :
  Vector3_sub (Vector3_add (t_ g) (Rot3_rotate (R_ g) q))
              (Vector3_add (t_ g) (Rot3_rotate (R_ g) p))
  = Rot3_rotate (R_ g) (Vector3_sub q p).
Proof. unfold Vector3_sub. entrywise. Qed.

(** A rigid motion of both poses leaves [between] as it was. *)
Lemma Pose3_between_compose_l (g a b : Pose3) :
  is_pose g ->
  Pose3_between (Pose3_compose g a) (Pose3_compose g b) = Pose3_between a b.
Proof.
  intros (Hl & _).
  assert (Hrot : Rot3_compose (Rot3_inverse (Rot3_compose (R_ g) (R_ a))) (R_ g)
                 = Rot3_inverse (R_ a)).
  { rewrite Rot3_inverse_compose, Rot3_compose_assoc, Hl.
    apply Rot3_compose_Identity_r. }
  apply Pose3_eq.
  - unfold Pose3_between, Pose3_compose, Pose3_inverse. cbn [R_].
    now rewrite <- Rot3_compose_assoc, Hrot.
  - rewrite !Pose3_between_translation. unfold Pose3_compose at 1 2 3.
    cbn [R_ t_]. now rewrite Vector3_sub_compose, <- Rot3_rotate_compose, Hrot.
Qed.

Section Meaning.
Context `{Gtsam}.

(** X8.  When the measurement is a rigid transform, the translation
    difference printed for a constraint is the distance between the
    translation the estimates imply and the measured one: forward for
    [between(pose1, pose2)], backward for [between(pose2, pose1)].  The
    rotation of the measurement plays no part in it. *)
Theorem X8_translation_difference_is_a_distance (values : Values)
    (b : BetweenFactorPose3) (pose1 pose2 : Pose3) :
  values !! key1 b = Some pose1 ->
  values !! key2 b = Some pose2 ->
  is_pose (measured b) ->
  exists rf rb,
    computeResidual b values
    = inr ((Vector3_norm (Vector3_sub (t_ (Pose3_between pose1 pose2))
                                      (t_ (measured b))), rf),
           (Vector3_norm (Vector3_sub (t_ (Pose3_between pose2 pose1))
                                      (t_ (measured b))), rb)).
Proof.
  intros H1 H2 Hm. rewrite (computeResidual_present b values _ _ H1 H2).
  rewrite !(Pose3_between_translation_norm (measured b)) by assumption.
  eauto.
Qed.

(** X9.  When the measurement has no translation and the two estimates
    are rigid transforms, both translation differences printed are the
    distance between the two estimated positions. *)
Theorem X9_pure_rotation_measurement_gives_the_distance (values : Values)
    (b : BetweenFactorPose3) (pose1 pose2 : Pose3) :
  values !! key1 b = Some pose1 ->
  values !! key2 b = Some pose2 ->
  is_pose pose1 -> is_pose pose2 -> is_pose (measured b) ->
  t_ (measured b) = Vector3_Zero ->
  exists rf rb,
    computeResidual b values
    = inr ((Vector3_norm (Vector3_sub (t_ pose2) (t_ pose1)), rf),
           (Vector3_norm (Vector3_sub (t_ pose2) (t_ pose1)), rb)).
Proof.
  intros H1 H2 Hp1 Hp2 Hm Ht.
  rewrite (computeResidual_present b values _ _ H1 H2).
  rewrite !(Pose3_between_translation_norm (measured b)) by assumption.
  rewrite Ht, !Vector3_sub_Zero_r.
  change (Vector3_norm (t_ ?p)) with (Vector3_norm (Pose3_translation p)).
  rewrite !Pose3_between_translation_norm by assumption.
  rewrite (Vector3_norm_sub_swap (t_ pose1)). eauto.
Qed.

(** X10.  A constraint from a node to itself: the two orders are the same
    computation, so the forward and the backward pair are equal; when the
    estimate and the measurement are rigid transforms the translation
    difference is the length of the measured translation. *)
Theorem X10_self_constraint (values : Values) (b : BetweenFactorPose3)
    (pose : Pose3) :
  key1 b = key2 b ->
  values !! key1 b = Some pose ->
  is_pose pose -> is_pose (measured b) ->
  exists r,
    computeResidual b values
    = inr ((Vector3_norm (t_ (measured b)), r),
           (Vector3_norm (t_ (measured b)), r)).
Proof.
  intros Hk H1 Hp Hm. assert (H2 := H1). rewrite Hk in H2.
  rewrite (computeResidual_present b values _ _ H1 H2).
  rewrite (Pose3_between_translation_norm (measured b)) by assumption.
  rewrite (Pose3_between_self pose Hp). cbn [t_ Pose3_Identity].
  rewrite <- (Vector3_norm_neg (t_ (measured b))).
  replace (Vector3_sub Vector3_Zero (t_ (measured b)))
    with (Vector3_neg (t_ (measured b))) by (unfold Vector3_sub; entrywise).
  eauto.
Qed.

(** X11.  The residuals do not depend on the frame the estimate is written
    in: moving every pose of the estimate by one rigid transform leaves the
    result of the residual computation, pairs or exception, as it was. *)
Theorem X11_residuals_ignore_a_rigid_motion_of_the_estimate (values : Values)
    (b : BetweenFactorPose3) (g : Pose3) :
  is_pose g ->
  computeResidual b (move_all g values) = computeResidual b values.
Proof.
  intros Hg. unfold computeResidual, Values_at, move_all.
  rewrite !lookup_fmap.
  destruct (values !! key1 b) as [pose1|]; [|reflexivity].
  destruct (values !! key2 b) as [pose2|]; [|reflexivity].
  cbn [fmap option_fmap option_map].
  now rewrite !Pose3_between_compose_l.
Qed.

End Meaning.

(** ** The statements above at the reference library *)

Lemma reference_graph_error_two_node :
  reference_graph_error (two_node_graph (translate 1 0 0)) two_node_values
  = inr 0.
Proof.
  unfold two_node_graph. cbn [reference_graph_error].
  rewrite reference_factor_error_two_node. f_equal.
  replace (1 - 1) with 0 by ring. rewrite Rabs_R0. field.
Qed.

Lemma diagnosable_two_node :
  Forall (@diagnosable reference two_node_values)
         (two_node_graph (translate 1 0 0)).
Proof.
  repeat constructor.
  - eexists. apply reference_factor_error_two_node.
  - intros b [= <-]. eexists.
    apply (@computeResidual_present reference _ _ Pose3_Identity
             (translate 1 0 0)); reflexivity.
Qed.

Lemma is_pose_tilted_between : is_pose (Pose3_between tilted_pose1 tilted_pose2).
Proof.
  apply is_pose_between; [apply is_rotation_Rx|apply is_rotation_Ry].
Qed.

Lemma X1_main_output_when_nothing_throws_witness :
  @main reference 2 ["g2o-test"; "data/two_nodes.g2o"]%string
  = (Returns 0%Z,
     InitialError 0
       :: concat (imap (@factor_report reference two_node_values)
                       (two_node_graph (translate 1 0 0)))
       ++ [FinalError 0]).
Proof.
  apply (@X1_main_output_when_nothing_throws reference 2
           ["g2o-test"; "data/two_nodes.g2o"]%string
           (two_node_graph (translate 1 0 0)) two_node_values two_node_values).
  - reflexivity.
  - simpl. lia.
  - apply reference_graph_error_two_node.
  - apply diagnosable_two_node.
  - reflexivity.
  - apply reference_graph_error_two_node.
Defined.

Lemma X2_returns_exactly_when_final_error_is_printed_witness :
  (exists out e1,
      @main reference 2 ["g2o-test"; "data/two_nodes.g2o"]%string
      = (Returns 0%Z, out ++ [FinalError e1])
      /\ forall x, FinalError x ∉ out)
  \/ (exists e out,
        @main reference 2 ["g2o-test"; "data/two_nodes.g2o"]%string
        = (Throws e, out)
        /\ forall x, FinalError x ∉ out).
Proof.
  apply (@X2_returns_exactly_when_final_error_is_printed reference 2
           ["g2o-test"; "data/two_nodes.g2o"]%string).
  intros g values [= <- _]. simpl. lia.
Defined.

(** An optimizer that refuses every other setting of the parameters. *)
Lemma X3_optimizer_gets_the_loaded_graph_and_estimate_witness :
  let opt := fun (g : list NonlinearFactor) (values : gmap N Pose3)
                 (p : LevenbergMarquardtParams) =>
               if Nat.eqb (maxIterations p) 1000
               then @inr exn (gmap N Pose3) values
               else inl (LibraryException "unexpected parameters") in
  let g := two_node_graph (translate 1 0 0) in
  let lines :=
    InitialError 0
      :: concat (imap (@factor_report reference two_node_values) g) in
  @main (with_optimize opt reference) 2
    ["g2o-test"; "data/two_nodes.g2o"]%string
  = match opt g two_node_values (mkParams (1 / 100000000) 1000) with
    | inl e => (Throws e, lines)
    | inr result =>
        match @graph_error reference g result with
        | inl e => (Throws e, lines ++ [FinalErrorLabel])
        | inr e1 => (Returns 0%Z, lines ++ [FinalError e1])
        end
    end.
Proof.
  apply (X3_optimizer_gets_the_loaded_graph_and_estimate reference
           (fun g values p =>
              if Nat.eqb (maxIterations p) 1000 then inr values
              else inl (LibraryException "unexpected parameters"))
           2 ["g2o-test"; "data/two_nodes.g2o"]%string
           (two_node_graph (translate 1 0 0)) two_node_values 0).
  - reflexivity.
  - simpl. lia.
  - apply reference_graph_error_two_node.
  - apply diagnosable_two_node.
Defined.

Lemma X4_loop_prints_a_prefix_of_the_reports_witness :
  exists n tail r,
    @factor_loop reference 3 (mkMem dangling_graph dangling_values [])
    = (r, mkMem dangling_graph dangling_values
            (concat (imap (@factor_report reference dangling_values)
                          (take n dangling_graph)) ++ tail))
    /\ Forall (@diagnosable reference dangling_values) (take n dangling_graph)
    /\ ((r = Returns tt /\ n = length dangling_graph /\ tail = [])
        \/ (exists factor e,
              dangling_graph !! n = Some factor /\ r = Throws e
              /\ @throws_at reference dangling_values n factor e tail)).
Proof.
  apply (@X4_loop_prints_a_prefix_of_the_reports reference dangling_graph
           dangling_values 3).
  simpl. lia.
Defined.

Lemma X5_every_printed_line_is_sound_witness :
  let g := two_node_graph (translate 1 0 0) in
  @line_sound reference g two_node_values (TranslationDifferenceV2 2 0)
  \/ (exists e, TranslationDifferenceV2 2 0 = InitialError e
                /\ @graph_error reference g two_node_values = inr e)
  \/ (exists e result,
        TranslationDifferenceV2 2 0 = FinalError e
        /\ @optimize reference g two_node_values params = inr result
        /\ @graph_error reference g result = inr e)
  \/ (exists e, TranslationDifferenceV2 2 0 = InitialErrorLabel
                /\ @graph_error reference g two_node_values = inl e)
  \/ (exists e result,
        TranslationDifferenceV2 2 0 = FinalErrorLabel
        /\ @optimize reference g two_node_values params = inr result
        /\ @graph_error reference g result = inl e).
Proof.
  apply (@X5_every_printed_line_is_sound reference 2
           ["g2o-test"; "data/two_nodes.g2o"]%string
           (two_node_graph (translate 1 0 0)) two_node_values).
  - reflexivity.
  - simpl. lia.
  - rewrite main_two_nodes. simpl. set_unfold. tauto.
Defined.

Lemma X6_where_an_exception_comes_from_witness :
  let g := dangling_graph in
  let values := dangling_values in
  (@main dangling_library 3 ["g2o-test"]%string).1 <> OutOfFuel
  /\ forall e, (@main dangling_library 3 ["g2o-test"]%string).1 = Throws e ->
       @graph_error dangling_library g values = inl e
       \/ (exists factor, factor ∈ g
                          /\ @factor_error dangling_library factor values = inl e)
       \/ (exists b k, Between b ∈ g /\ e = ValuesKeyDoesNotExist k
                       /\ (k = key1 b \/ k = key2 b) /\ values !! k = None)
       \/ @optimize dangling_library g values params = inl e
       \/ (exists result, @optimize dangling_library g values params = inr result
                          /\ @graph_error dangling_library g result = inl e).
Proof.
  apply (@X6_where_an_exception_comes_from dangling_library 3
           ["g2o-test"]%string dangling_graph dangling_values).
  - reflexivity.
  - simpl. lia.
Defined.

Lemma X8_translation_difference_is_a_distance_witness :
  exists rf rb,
    @computeResidual reference tilted_constraint tilted_values
    = inr ((Vector3_norm
              (Vector3_sub (t_ (Pose3_between tilted_pose1 tilted_pose2))
                           (t_ (measured tilted_constraint))), rf),
           (Vector3_norm
              (Vector3_sub (t_ (Pose3_between tilted_pose2 tilted_pose1))
                           (t_ (measured tilted_constraint))), rb)).
Proof.
  apply (@X8_translation_difference_is_a_distance reference tilted_values
           tilted_constraint tilted_pose1 tilted_pose2).
  - reflexivity.
  - reflexivity.
  - apply is_pose_tilted_between.
Defined.

Lemma X9_pure_rotation_measurement_gives_the_distance_witness :
  exists rf rb,
    @computeResidual reference
      (mkBetweenFactorPose3 0%N 1%N tilted_pose1) tilted_values
    = inr ((Vector3_norm (Vector3_sub (t_ tilted_pose2) (t_ tilted_pose1)), rf),
           (Vector3_norm (Vector3_sub (t_ tilted_pose2) (t_ tilted_pose1)), rb)).
Proof.
  apply (@X9_pure_rotation_measurement_gives_the_distance reference
           tilted_values (mkBetweenFactorPose3 0%N 1%N tilted_pose1)
           tilted_pose1 tilted_pose2).
  - reflexivity.
  - reflexivity.
  - apply is_rotation_Rx.
  - apply is_rotation_Ry.
  - apply is_rotation_Rx.
  - reflexivity.
Defined.

Lemma X10_self_constraint_witness :
  exists r,
    @computeResidual reference self_constraint tilted_values
    = inr ((Vector3_norm (t_ (measured self_constraint)), r),
           (Vector3_norm (t_ (measured self_constraint)), r)).
Proof.
  apply (@X10_self_constraint reference tilted_values self_constraint
           tilted_pose2).
  - reflexivity.
  - reflexivity.
  - apply is_rotation_Ry.
  - apply is_rotation_Rx.
Defined.

Lemma X11_residuals_ignore_a_rigid_motion_of_the_estimate_witness :
  @computeResidual reference tilted_constraint
    (move_all tilted_pose3 tilted_values)
  = @computeResidual reference tilted_constraint tilted_values.
Proof.
  apply (@X11_residuals_ignore_a_rigid_motion_of_the_estimate reference
           tilted_values tilted_constraint tilted_pose3).
  apply is_rotation_Ry.
Defined.
